(** * Minesweeper knowledge-based agent (src/minesweeper.py)

    A shallow embedding of the classes [Sentence] and [MinesweeperAI] and
    of the inference engine made of [mark_cells] and [infer_knowledge].

    Python sets of cells are finite sets [gset Cell]; the knowledge base is
    a Python list of [Sentence] objects and is modelled as a list of
    sentence values, read by index.  Every sentence held by the list is a
    fresh object ([Sentence.__init__] copies its cells with [set(cells)]
    and every [append] is given a newly built sentence), so no two
    positions of the list alias. *)

From stdpp Require Import gmap list sets.
From Stdlib Require Import ZArith Lia.

Local Open Scope Z_scope.

(** ** Data model *)

(** A cell is a Python tuple [(i, j)] of unbounded integers. *)
Definition Cell : Type := (Z * Z)%type.

Record Sentence : Type := mkSentence {
  cells : gset Cell;
  count : Z
}.

(** [Sentence.__eq__]: same cells and same count. *)
#[global] Instance Sentence_eq_dec : EqDecision Sentence.
Proof. solve_decision. Defined.

Record Agent : Type := mkAgent {
  height : Z;
  width : Z;
  moves_made : gset Cell;
  mines : gset Cell;
  safes : gset Cell;
  knowledge : list Sentence
}.

(** [MinesweeperAI.__init__]. *)
Definition init (h w : Z) : Agent :=
  {| height := h; width := w;
     moves_made := ∅; mines := ∅; safes := ∅; knowledge := [] |}.

(** ** Sentence *)

(** [known_mines] returns [self.cells] when [len(self.cells) == self.count]
    and falls off the end (Python [None]) otherwise. *)
Definition known_mines (s : Sentence) : option (gset Cell) :=
  if decide (Z.of_nat (size (cells s)) = count s) then Some (cells s) else None.

Definition known_safes (s : Sentence) : option (gset Cell) :=
  if decide (count s = 0) then Some (cells s) else None.

Module Sent.

(** [Sentence.mark_mine]. *)
Definition mark_mine (cell : Cell) (s : Sentence) : Sentence :=
  if decide (cell ∈ cells s)
  then {| cells := cells s ∖ {[cell]}; count := count s - 1 |}
  else s.

(** [Sentence.mark_safe]. *)
Definition mark_safe (cell : Cell) (s : Sentence) : Sentence :=
  if decide (cell ∈ cells s)
  then {| cells := cells s ∖ {[cell]}; count := count s |}
  else s.

End Sent.

(** ** Outcomes of a bounded run

    [mark_cells] and [infer_knowledge] call each other without a bound and
    the loops of [infer_knowledge] walk a list that they extend.  Each
    function below takes a step budget; a run that needs more steps than
    the budget stops with [OutOfFuel], carrying the state reached so far. *)

Inductive outcome (A : Type) : Type :=
| Returned (a : A)
| OutOfFuel (a : A).
Arguments Returned {A} a.
Arguments OutOfFuel {A} a.

Definition state_of {A : Type} (o : outcome A) : A :=
  match o with Returned a | OutOfFuel a => a end.

Definition returned {A : Type} (o : outcome A) : bool :=
  match o with Returned _ => true | OutOfFuel _ => false end.

(** ** MinesweeperAI: marking *)

Definition set_knowledge (kb : list Sentence) (st : Agent) : Agent :=
  {| height := height st; width := width st;
     moves_made := moves_made st; mines := mines st; safes := safes st;
     knowledge := kb |}.

(** [MinesweeperAI.mark_mine]: [self.mines.add(cell)], then every sentence
    of the knowledge base is told. *)
Definition mark_mine (cell : Cell) (st : Agent) : Agent :=
  {| height := height st; width := width st;
     moves_made := moves_made st;
     mines := mines st ∪ {[cell]};
     safes := safes st;
     knowledge := Sent.mark_mine cell <$> knowledge st |}.

(** [MinesweeperAI.mark_safe]. *)
Definition mark_safe (cell : Cell) (st : Agent) : Agent :=
  {| height := height st; width := width st;
     moves_made := moves_made st;
     mines := mines st;
     safes := safes st ∪ {[cell]};
     knowledge := Sent.mark_safe cell <$> knowledge st |}.

(** ** mark_cells: the extraction pass *)

(** [for mine in fcheck_mines: self.mark_mine(mine)], over the frozen copy
    of the set. *)
Definition mark_all (mark : Cell → Agent → Agent) (cs : gset Cell)
    (st : Agent) : Agent :=
  foldl (λ acc c, mark c acc) st (elements cs).

(** One turn of [for sentence in self.knowledge] in [mark_cells].  The
    sentence is read from the current list: marks made in earlier turns
    have already changed it, and [known_safes] is asked after the mines of
    this very sentence were marked.  [if check_mines:] is false for [None]
    and for the empty set. *)
Definition extract_at (acc : Agent * bool) (i : nat) : Agent * bool :=
  let '(st, changed) := acc in
  match knowledge st !! i with
  | None => acc
  | Some sentence =>
    let '(st1, changed1) :=
      match known_mines sentence with
      | Some check_mines =>
          if decide (check_mines = ∅) then (st, changed)
          else (mark_all mark_mine check_mines st, true)
      | None => (st, changed)
      end in
    match knowledge st1 !! i with
    | None => (st1, changed1)
    | Some sentence' =>
      match known_safes sentence' with
      | Some check_safes =>
          if decide (check_safes = ∅) then (st1, changed1)
          else (mark_all mark_safe check_safes st1, true)
      | None => (st1, changed1)
      end
    end
  end.

(** The whole loop.  Marking never changes the length of the list, so the
    loop visits the positions [0 .. len-1]. *)
Definition extraction (st : Agent) : Agent * bool :=
  foldl extract_at (st, false) (seq 0 (length (knowledge st))).

(** ** infer_knowledge: the resolution pass *)

(** The test [sentence2 != sentence1 and
    sentence2.cells.issubset(sentence1.cells)]. *)
Definition qualifies (sentence1 sentence2 : Sentence) : bool :=
  bool_decide (sentence2 ≠ sentence1)
  && bool_decide (cells sentence2 ⊆ cells sentence1).

(** [Sentence(sentence1.cells.difference(sentence2.cells),
    sentence1.count - sentence2.count)]. *)
Definition new_sentence (sentence1 sentence2 : Sentence) : Sentence :=
  {| cells := cells sentence1 ∖ cells sentence2;
     count := count sentence1 - count sentence2 |}.

(** [for sentence2 in self.knowledge], started at position [j].  A Python
    [for] over a list keeps a position and stops when the position reaches
    the length the list has at that moment, so the sentences appended by
    the body are visited too. *)
Fixpoint inner_loop (fuel : nat) (sentence1 : Sentence) (j : nat)
    (kb : list Sentence) (subset_found : bool)
    : outcome (list Sentence * bool) :=
  match kb !! j with
  | None => Returned (kb, subset_found)
  | Some sentence2 =>
    match fuel with
    | O => OutOfFuel (kb, subset_found)
    | S fuel' =>
      if qualifies sentence1 sentence2
      then inner_loop fuel' sentence1 (S j)
             (kb ++ [new_sentence sentence1 sentence2]) true
      else inner_loop fuel' sentence1 (S j) kb subset_found
    end
  end.

(** The local variables of [infer_knowledge] together with the list. *)
Record Resolution : Type := mkResolution {
  res_knowledge : list Sentence;
  res_subset_found : bool;
  res_changed_sentences : list Sentence;
  res_changed : bool
}.

(** [for sentence1 in self.knowledge], started at position [i].
    [subset_found] is set before this loop and never cleared in it. *)
Fixpoint outer_loop (fuel : nat) (i : nat) (r : Resolution)
    : outcome Resolution :=
  match res_knowledge r !! i with
  | None => Returned r
  | Some sentence1 =>
    match fuel with
    | O => OutOfFuel r
    | S fuel' =>
      match inner_loop fuel' sentence1 0 (res_knowledge r)
              (res_subset_found r) with
      | OutOfFuel (kb, found) =>
          OutOfFuel (mkResolution kb found (res_changed_sentences r)
                       (res_changed r))
      | Returned (kb, found) =>
          if found
          then outer_loop fuel' (S i)
                 (mkResolution kb found
                    (res_changed_sentences r ++ [sentence1]) true)
          else outer_loop fuel' (S i)
                 (mkResolution kb found (res_changed_sentences r)
                    (res_changed r))
      end
    end
  end.

(** [list.remove]: drops the first item equal to [x]. *)
Fixpoint remove (x : Sentence) (l : list Sentence) : list Sentence :=
  match l with
  | [] => []
  | y :: l' => if decide (y = x) then l' else y :: remove x l'
  end.

(** [for sentence in changed_sentences: if sentence in self.knowledge:
    self.knowledge.remove(sentence)]. *)
Definition remove_changed (changed_sentences kb : list Sentence)
    : list Sentence :=
  foldl (λ acc s, if decide (s ∈ acc) then remove s acc else acc)
        kb changed_sentences.

(** [infer_knowledge], with its call of [mark_cells] as a parameter. *)
Definition infer_knowledge_with
    (mark_cells : bool → Agent → outcome Agent)
    (fuel : nat) (changed : bool) (st : Agent) : outcome Agent :=
  if negb changed then Returned st
  else
    match outer_loop fuel 0 (mkResolution (knowledge st) false [] false) with
    | OutOfFuel r => OutOfFuel (set_knowledge (res_knowledge r) st)
    | Returned r =>
        mark_cells (res_changed r)
          (set_knowledge
             (remove_changed (res_changed_sentences r) (res_knowledge r)) st)
    end.

(** [mark_cells]. *)
Fixpoint mark_cells (fuel : nat) (changed : bool) (st : Agent)
    : outcome Agent :=
  if negb changed then Returned st
  else
    match fuel with
    | O => OutOfFuel st
    | S fuel' =>
      let '(st1, changed1) := extraction st in
      infer_knowledge_with (mark_cells fuel') fuel' changed1 st1
    end.

(** [infer_knowledge]. *)
Definition infer_knowledge (fuel : nat) (changed : bool) (st : Agent)
    : outcome Agent :=
  infer_knowledge_with (mark_cells fuel) fuel changed st.

(** ** add_knowledge *)

(** Steps 3.1 and 3.2: the two nested [range] loops with their tests, in
    the order of the source. *)
Definition nearby_cells (cell : Cell) (st : Agent) : list Cell :=
  i ← seqZ (cell.1 - 1) 3;
  j ← seqZ (cell.2 - 1) 3;
  (if bool_decide ((i, j) ∈ moves_made st ∨ (i, j) ∈ mines st
                   ∨ (i, j) ∈ safes st)
   then []
   else if bool_decide (0 ≤ i < height st ∧ 0 ≤ j < width st)
        then [(i, j)] else []).

(** Steps 1 to 3 of [add_knowledge]: everything before [mark_cells(True)]. *)
Definition add_sentence (cell : Cell) (n : Z) (st : Agent) : Agent :=
  let st1 :=
    {| height := height st; width := width st;
       moves_made := moves_made st ∪ {[cell]};
       mines := mines st; safes := safes st;
       knowledge := knowledge st |} in
  let st2 := mark_safe cell st1 in
  set_knowledge
    (knowledge st2
       ++ [ {| cells := list_to_set (nearby_cells cell st2); count := n |} ])
    st2.

Definition add_knowledge (fuel : nat) (cell : Cell) (n : Z) (st : Agent)
    : outcome Agent :=
  mark_cells fuel true (add_sentence cell n st).

(** ** Moves *)

Inductive exn : Type := IndexError.

Inductive result (A : Type) : Type :=
| Ret (a : A)
| Raise (e : exn).
Arguments Ret {A} a.
Arguments Raise {A} e.

(** [random.choice(seq)]: the item at a position below [len(seq)] drawn by
    the generator, here given by [rnd]; [IndexError] on an empty list. *)
Definition choice {A : Type} (rnd : nat) (l : list A) : result A :=
  match l with
  | [] => Raise IndexError
  | x :: _ => Ret (nth (rnd mod length l) l x)
  end.

(** [for i in range(self.height): for j in range(self.width)]. *)
Definition board_cells (st : Agent) : list Cell :=
  i ← seqZ 0 (height st); j ← seqZ 0 (width st); [(i, j)].

Definition safe_list (st : Agent) : list Cell :=
  filter (λ c, c ∈ safes st ∧ (c ∉ moves_made st) ∧ (c ∉ mines st))
         (board_cells st).

Definition random_list (st : Agent) : list Cell :=
  filter (λ c, (c ∉ moves_made st) ∧ (c ∉ mines st)) (board_cells st).

(** [make_safe_move]: the result and the agent after the call. *)
Definition make_safe_move (rnd : nat) (st : Agent)
    : result (option Cell) * Agent :=
  match safe_list st with
  | [] => (Ret None, st)
  | l => (match choice rnd l with
          | Ret c => Ret (Some c)
          | Raise e => Raise e
          end, st)
  end.

(** [make_random_move]: there is no test for the empty list. *)
Definition make_random_move (rnd : nat) (st : Agent)
    : result (option Cell) * Agent :=
  (match choice rnd (random_list st) with
   | Ret c => Ret (Some c)
   | Raise e => Raise e
   end, st).

(** ** Predicates used by the statements *)

(** The three cell sets of [st] are included in those of [st']. *)
Record grows (st st' : Agent) : Prop := mkGrows {
  grows_moves : moves_made st ⊆ moves_made st';
  grows_mines : mines st ⊆ mines st';
  grows_safes : safes st ⊆ safes st'
}.

(** Some sentence of [kb] passes the test of the resolution pass against
    another one: there is a pair (A, B) with B different from A and the
    cells of B included in those of A. *)
Definition has_pair (kb : list Sentence) : Prop :=
  Exists (λ s1, Exists (λ s2, qualifies s1 s2 = true) kb) kb.

#[global] Instance has_pair_dec kb : Decision (has_pair kb).
Proof. unfold has_pair. apply _. Defined.

(** [sentence2] passes the test against [sentence1] and the sentence
    derived from the two differs from [sentence1]: [sentence2] is not the
    empty sentence of count 0. *)
Definition feeds (sentence1 sentence2 : Sentence) : Prop :=
  qualifies sentence1 sentence2 = true
  ∧ new_sentence sentence1 sentence2 ≠ sentence1.

(** A position from [i] on holds a sentence against which some sentence of
    the list passes the test. *)
Definition pair_from (i : nat) (kb : list Sentence) : Prop :=
  ∃ i' s1 s2, (i ≤ i')%nat ∧ kb !! i' = Some s1 ∧ s2 ∈ kb
              ∧ qualifies s1 s2 = true.

(** The invariant of section 3 of the specification. *)
Definition count_in_range (s : Sentence) : Prop :=
  0 ≤ count s ≤ Z.of_nat (size (cells s)).

(** ** States of the scenarios *)

(** A 3 x 3 board with mines at (0,1), (1,0) and (2,2): (0,0) shows 2. *)
Definition corner_revealed : Agent :=
  state_of (add_knowledge 1 (0, 0) 2 (init 3 3)).

(** A 1 x 3 board with its mine at (0,1): (0,0) shows 1. *)
Definition row_left_revealed : Agent :=
  state_of (add_knowledge 3 (0, 0) 1 (init 1 3)).

(** A 1 x 1 board without mine, its only cell revealed. *)
Definition single_revealed : Agent :=
  state_of (add_knowledge 3 (0, 0) 0 (init 1 1)).

(** The knowledge base of the subset resolution example. *)
Definition sentence_A : Sentence :=
  {| cells := {[ (0, 0); (0, 1); (0, 2) ]}; count := 1 |}.
Definition sentence_B : Sentence :=
  {| cells := {[ (0, 0); (0, 1) ]}; count := 1 |}.
Definition example_AB : Agent :=
  set_knowledge [sentence_A; sentence_B] (init 3 3).

Definition example_BA : Agent :=
  set_knowledge [sentence_B; sentence_A] (init 3 3).

(** The corner scenario goes on: (1,1) shows 3.  The state after the
    extraction pass of that second call, and its two sentences. *)
Definition centre_extracted : Agent :=
  (extraction (add_sentence (1, 1) 3 corner_revealed)).1.
Definition empty_sentence : Sentence := {| cells := ∅; count := 0 |}.
Definition rest_sentence : Sentence :=
  {| cells := {[ (0, 2); (1, 2); (2, 0); (2, 1); (2, 2) ]}; count := 1 |}.

(** The row scenario goes on: (0,2) shows 1. *)
Definition row_both_revealed : Agent :=
  state_of (add_knowledge 1 (0, 2) 1 row_left_revealed).

(** The 3 x 3 scenario with the sole mine at (0,0). *)
Definition centre_revealed : Agent :=
  state_of (add_knowledge 1 (1, 1) 1 (init 3 3)).
Definition centre_top_revealed : Agent :=
  state_of (add_knowledge 1 (0, 1) 1 centre_revealed).

(** ** Minesweeper: the game board *)

Module Game.

Inductive error : Type := IndexError | ValueError.

Inductive res (A : Type) : Type :=
| Ok (a : A)
| Err (e : error).
Arguments Ok {A} a.
Arguments Err {A} e.

(** [l[i]] on a Python list: a negative index counts from the end, an
    index out of range raises [IndexError]. *)
Definition position (len : nat) (i : Z) : option nat :=
  let k := if decide (i < 0) then Z.of_nat len + i else i in
  if decide (0 ≤ k < Z.of_nat len) then Some (Z.to_nat k) else None.

Definition getitem {A : Type} (l : list A) (i : Z) : res A :=
  match position (length l) i with
  | Some k => match l !! k with Some x => Ok x | None => Err IndexError end
  | None => Err IndexError
  end.

(** [l[i] = x]. *)
Definition setitem {A : Type} (l : list A) (i : Z) (x : A) : res (list A) :=
  match position (length l) i with
  | Some k => Ok (<[k := x]> l)
  | None => Err IndexError
  end.

(** [random.randrange(n)]: a number below [n] drawn by the generator, here
    taken from [r]; [ValueError] when the range is empty. *)
Definition randrange (n r : Z) : res Z :=
  if decide (n ≤ 0) then Err ValueError else Ok (r mod n).

Record t : Type := mk {
  height : Z;
  width : Z;
  mines : gset Cell;
  board : list (list bool);
  mines_found : gset Cell
}.

(** The first loop of [__init__]: [height] rows of [width] times [False];
    [range] of a negative number is empty. *)
Definition empty_board (h w : Z) : list (list bool) :=
  replicate (Z.to_nat h) (replicate (Z.to_nat w) false).

(** [self.board[i][j]]. *)
Definition at_cell (g : t) (i j : Z) : res bool :=
  match getitem (board g) i with
  | Ok row => getitem row j
  | Err e => Err e
  end.

(** [self.board[i][j] = True]. *)
Definition set_cell (g : t) (i j : Z) : res (list (list bool)) :=
  match getitem (board g) i with
  | Ok row =>
    match setitem row j true with
    | Ok row' => setitem (board g) i row'
    | Err e => Err e
    end
  | Err e => Err e
  end.

(** How the construction of a game ends: built, stopped by an exception,
    or still drawing when the given draws are used up. *)
Inductive construction : Type :=
| Built (g : t)
| Raised (e : error)
| Drawing (g : t).

(** [while len(self.mines) != mines], one pair of draws per turn. *)
Fixpoint place (draws : list (Z * Z)) (target : Z) (g : t) : construction :=
  if decide (Z.of_nat (size (mines g)) = target) then Built g
  else
    match draws with
    | [] => Drawing g
    | (r1, r2) :: draws' =>
      match randrange (height g) r1 with
      | Err e => Raised e
      | Ok i =>
        match randrange (width g) r2 with
        | Err e => Raised e
        | Ok j =>
          match at_cell g i j with
          | Err e => Raised e
          | Ok true => place draws' target g
          | Ok false =>
            match set_cell g i j with
            | Err e => Raised e
            | Ok board' =>
                place draws' target
                  {| height := height g; width := width g;
                     mines := mines g ∪ {[(i, j)]};
                     board := board';
                     mines_found := mines_found g |}
            end
          end
        end
      end
    end.

(** [Minesweeper.__init__(height, width, mines)]. *)
Definition init (h w target : Z) (draws : list (Z * Z)) : construction :=
  place draws target
    {| height := h; width := w; mines := ∅;
       board := empty_board h w; mines_found := ∅ |}.

(** [is_mine]. *)
Definition is_mine (g : t) (cell : Cell) : res bool :=
  at_cell g cell.1 cell.2.

(** The cells visited by the two [range] loops of [nearby_mines]. *)
Definition around (cell : Cell) : list Cell :=
  i ← seqZ (cell.1 - 1) 3; j ← seqZ (cell.2 - 1) 3; [(i, j)].

(** One turn of the inner loop of [nearby_mines]. *)
Definition nearby_step (g : t) (cell : Cell) (acc : res Z) (ij : Cell)
    : res Z :=
  match acc with
  | Err e => Err e
  | Ok n =>
    if decide (ij = cell) then Ok n
    else if bool_decide (0 ≤ ij.1 < height g ∧ 0 ≤ ij.2 < width g)
    then match at_cell g ij.1 ij.2 with
         | Ok true => Ok (n + 1)
         | Ok false => Ok n
         | Err e => Err e
         end
    else Ok n
  end.

(** [nearby_mines]. *)
Definition nearby_mines (g : t) (cell : Cell) : res Z :=
  foldl (nearby_step g cell) (Ok 0) (around cell).

(** [won]. *)
Definition won (g : t) : bool := bool_decide (mines_found g = mines g).

(** The board is [height] rows of [width] entries, an entry is true
    exactly at the cells of [mines], and these lie on the board. *)
Record consistent (g : t) : Prop := mkConsistent {
  board_rows : length (board g) = Z.to_nat (height g);
  board_columns :
    ∀ i row, board g !! i = Some row → length row = Z.to_nat (width g);
  board_mines :
    ∀ i j row,
      board g !! i = Some row →
      (row !! j = Some true ↔ (Z.of_nat i, Z.of_nat j) ∈ mines g);
  mines_on_board :
    ∀ c, c ∈ mines g → 0 ≤ c.1 < height g ∧ 0 ≤ c.2 < width g
}.

End Game.

(** A 2 x 3 game with two mines, built from three pairs of draws, the
    second of which hits the cell of the first. *)
Definition small_game : Game.t :=
  match Game.init 2 3 2 [(7, 5); (1, 2); (4, 0)] with
  | Game.Built g | Game.Drawing g => g
  | Game.Raised _ => Game.mk 0 0 ∅ [] ∅
  end.

(** [c] is one of the eight cells around [cell]. *)
Definition adjacent (cell c : Cell) : Prop :=
  c ≠ cell ∧ cell.1 - 1 ≤ c.1 ≤ cell.1 + 1 ∧ cell.2 - 1 ≤ c.2 ≤ cell.2 + 1.

#[global] Instance adjacent_dec cell c : Decision (adjacent cell c).
Proof. unfold adjacent. apply _. Defined.

(** [s] is a true statement about a board whose mines are [M]: its count
    is the number of mines among its cells. *)
Definition true_of (M : gset Cell) (s : Sentence) : Prop :=
  count s = Z.of_nat (size (cells s ∩ M)).

#[global] Instance true_of_dec M s : Decision (true_of M s).
Proof. unfold true_of. apply _. Defined.

(** What the agent holds is right for the mines [M]: every sentence is
    true, every known mine is a mine and no safe cell is one. *)
Record sound (M : gset Cell) (st : Agent) : Prop := mkSound {
  sound_knowledge : Forall (true_of M) (knowledge st);
  sound_mines : mines st ⊆ M;
  sound_safes : safes st ## M
}.

(** [st'] has the board size and the moves of [st]. *)
Definition keeps_moves (st st' : Agent) : Prop :=
  height st' = height st ∧ width st' = width st
  ∧ moves_made st' = moves_made st.

(** What marking every cell of [cs] as a mine, or as safe, makes of a
    sentence. *)
Definition without_mines (cs : gset Cell) (s : Sentence) : Sentence :=
  {| cells := cells s ∖ cs;
     count := count s - Z.of_nat (size (cells s ∩ cs)) |}.
Definition without_safes (cs : gset Cell) (s : Sentence) : Sentence :=
  {| cells := cells s ∖ cs; count := count s |}.

(** * Properties *)

(** ** The cell sets only grow *)

Lemma grows_refl st : grows st st.
Proof. by split. Qed.

Lemma grows_trans st1 st2 st3 : grows st1 st2 → grows st2 st3 → grows st1 st3.
Proof. intros [] []. split; set_solver. Qed.

Lemma grows_mark_mine cell st : grows st (mark_mine cell st).
Proof. split; simpl; set_solver. Qed.

Lemma grows_mark_safe cell st : grows st (mark_safe cell st).
Proof. split; simpl; set_solver. Qed.

Lemma grows_set_knowledge kb st : grows st (set_knowledge kb st).
Proof. by split. Qed.

Lemma grows_mark_all mark cs st :
  (∀ c a, grows a (mark c a)) → grows st (mark_all mark cs st).
Proof.
  intros Hmark. unfold mark_all.
  generalize (elements cs). intros l. revert st.
  induction l as [|c l IH]; intros st; simpl.
  - apply grows_refl.
  - eapply grows_trans; [apply (Hmark c) | apply IH].
Qed.

Lemma grows_extract_at acc i : grows acc.1 (extract_at acc i).1.
Proof.
  destruct acc as [st changed]. unfold extract_at; simpl.
  destruct (knowledge st !! i) as [s|]; [|apply grows_refl].
  assert (∃ st1 ch1,
    match known_mines s with
    | Some check_mines =>
        if decide (check_mines = ∅) then (st, changed)
        else (mark_all mark_mine check_mines st, true)
    | None => (st, changed)
    end = (st1, ch1) ∧ grows st st1) as (st1 & ch1 & -> & H1).
  { destruct (known_mines s) as [cs|]; [destruct (decide (cs = ∅))|];
      eexists _, _; (split; [reflexivity|]);
      auto using grows_refl, grows_mark_all, grows_mark_mine. }
  destruct (knowledge st1 !! i) as [s'|]; [|done].
  destruct (known_safes s') as [cs|]; [destruct (decide (cs = ∅))|];
    simpl; try done.
  eapply grows_trans; [done|].
  auto using grows_mark_all, grows_mark_safe.
Qed.

Lemma grows_extraction st : grows st (extraction st).1.
Proof.
  unfold extraction. generalize (seq 0 (length (knowledge st))).
  intros l. change st with ((st, false).1) at 1.
  generalize (st, false). induction l as [|i l IH]; intros acc; simpl.
  - apply grows_refl.
  - eapply grows_trans; [apply (grows_extract_at acc i) | apply IH].
Qed.

Lemma grows_mark_cells fuel changed st :
  grows st (state_of (mark_cells fuel changed st)).
Proof.
  revert changed st. induction fuel as [|fuel IH]; intros [] st; simpl;
    try apply grows_refl.
  pose proof (grows_extraction st) as Hex.
  destruct (extraction st) as [st1 changed1]; simpl in Hex.
  unfold infer_knowledge_with.
  destruct changed1; simpl; [|done].
  destruct (outer_loop _ _ _) as [r|r]; simpl.
  - eapply grows_trans; [done|].
    eapply grows_trans; [apply grows_set_knowledge | apply IH].
  - eapply grows_trans; [done | apply grows_set_knowledge].
Qed.

Lemma grows_add_sentence cell n st : grows st (add_sentence cell n st).
Proof. split; simpl; set_solver. Qed.

(** C10: no operation of the agent removes a cell from [moves_made],
    [mines] or [safes]: whatever the step budget, the three sets of the
    state reached by [add_knowledge] (returned or not), and those after
    [mark_mine], [mark_safe], [make_safe_move] and [make_random_move],
    include the sets before the call. *)
Theorem sets_grow_monotonically (st : Agent) (cell : Cell) (n : Z)
    (fuel rnd : nat) :
  grows st (state_of (add_knowledge fuel cell n st))
  ∧ grows st (mark_mine cell st)
  ∧ grows st (mark_safe cell st)
  ∧ grows st (make_safe_move rnd st).2
  ∧ grows st (make_random_move rnd st).2.
Proof.
  repeat split_and; auto using grows_mark_mine, grows_mark_safe.
  - unfold add_knowledge.
    eapply grows_trans; [apply grows_add_sentence | apply grows_mark_cells].
  - unfold make_safe_move. destruct (safe_list st); apply grows_refl.
  - apply grows_refl.
Qed.

(** ** Marking *)

Lemma sentence_mark_mine_idemp cell s :
  Sent.mark_mine cell (Sent.mark_mine cell s) = Sent.mark_mine cell s.
Proof.
  unfold Sent.mark_mine at 2 3.
  destruct (decide (cell ∈ cells s)) as [Hin|Hout].
  - unfold Sent.mark_mine; simpl.
    destruct (decide (cell ∈ cells s ∖ {[cell]})) as [Hin'|]; [|done].
    set_solver.
  - unfold Sent.mark_mine. by destruct (decide (cell ∈ cells s)).
Qed.

(** C8: [mark_mine] of the agent is idempotent: a second call with the
    same cell leaves the height, width, the three sets and every sentence
    of the knowledge base as the first call left them. *)
Theorem mark_mine_idempotent (st : Agent) (cell : Cell) :
  mark_mine cell (mark_mine cell st) = mark_mine cell st.
Proof.
  unfold mark_mine; simpl. f_equal.
  - set_solver.
  - rewrite <- list_fmap_compose. apply list_fmap_ext.
    intros _ s _. apply sentence_mark_mine_idemp.
Qed.

(** ** Moves *)

(** C9: [make_safe_move] hands back the agent it was given: [moves_made],
    [safes], [mines] and the knowledge base are those before the call. *)
Theorem make_safe_move_frame (st : Agent) (rnd : nat) :
  (make_safe_move rnd st).2 = st.
Proof. unfold make_safe_move. by destruct (safe_list st). Qed.

Lemma elem_of_board_cells st c :
  c ∈ board_cells st ↔ 0 ≤ c.1 < height st ∧ 0 ≤ c.2 < width st.
Proof.
  unfold board_cells. rewrite list_elem_of_bind. split.
  - intros (i & Hj & Hi). apply list_elem_of_bind in Hj as (j & Hc & Hj).
    apply list_elem_of_singleton in Hc as ->.
    apply elem_of_seqZ in Hi, Hj. simpl. lia.
  - intros [Hi Hj]. destruct c as [i j]; cbn [fst snd] in *.
    exists i. split; [|apply elem_of_seqZ; lia].
    apply list_elem_of_bind. exists j.
    split; [by apply list_elem_of_singleton | apply elem_of_seqZ; lia].
Qed.

Lemma choice_elem_of {A : Type} rnd (l : list A) x :
  choice rnd l = Ret x → x ∈ l.
Proof.
  destruct l as [|y l]; [done|]. unfold choice.
  assert (length (y :: l) ≠ 0%nat) as Hlen by done.
  revert Hlen. generalize (y :: l). intros l' Hlen [= <-].
  by apply list_elem_of_In, nth_In, Nat.mod_upper_bound.
Qed.

(** A cell returned by [make_random_move] is a board cell that is neither
    in [moves_made] nor in [mines]; the function never returns [None]. *)
Lemma make_random_move_returns st rnd o :
  (make_random_move rnd st).1 = Ret o →
  ∃ c, o = Some c ∧ c ∈ board_cells st ∧ (c ∉ moves_made st) ∧ (c ∉ mines st).
Proof.
  unfold make_random_move; simpl.
  destruct (choice rnd (random_list st)) as [c|e] eqn:Hc; [|done].
  intros [= <-]. exists c. split; [done|].
  apply choice_elem_of in Hc. unfold random_list in Hc.
  apply list_elem_of_filter in Hc. tauto.
Qed.

(** C6: when every cell of the board is in [moves_made] or in [mines],
    [make_random_move] does not return: [random.choice] is given the empty
    list and raises [IndexError]. *)
Theorem make_random_move_no_candidate (st : Agent) (rnd : nat) :
  (∀ c, c ∈ board_cells st → c ∈ moves_made st ∨ c ∈ mines st) →
  make_random_move rnd st = (Raise IndexError, st).
Proof.
  intros Hall. unfold make_random_move.
  assert (random_list st = []) as ->; [|done].
  apply elem_of_nil_inv. intros c Hc. unfold random_list in Hc.
  apply list_elem_of_filter in Hc as [[Hm Hn] Hc].
  destruct (Hall c Hc); done.
Qed.

Lemma make_random_move_no_candidate_witness :
  (∀ c, c ∈ board_cells single_revealed →
        c ∈ moves_made single_revealed ∨ c ∈ mines single_revealed)
  ∧ add_knowledge 3 (0, 0) 0 (init 1 1) = Returned single_revealed
  ∧ make_random_move 0 single_revealed = (Raise IndexError, single_revealed).
Proof.
  assert (∀ c, c ∈ board_cells single_revealed →
            c ∈ moves_made single_revealed ∨ c ∈ mines single_revealed) as H.
  { intros c Hc. apply elem_of_board_cells in Hc. left.
    assert (c = (0, 0)) as ->.
    { destruct c as [i j]. change (height single_revealed) with 1 in Hc.
      change (width single_revealed) with 1 in Hc. simpl in Hc.
      f_equal; lia. }
    apply (bool_decide_unpack _). vm_compute. exact I. }
  split; [exact H|]. split; [vm_compute; reflexivity|].
  exact (make_random_move_no_candidate single_revealed 0 H).
Defined.

(** ** add_knowledge: the new sentence *)

Lemma elem_of_nearby_cells cell st c :
  c ∈ nearby_cells cell st ↔
    (cell.1 - 1 ≤ c.1 ≤ cell.1 + 1 ∧ cell.2 - 1 ≤ c.2 ≤ cell.2 + 1)
    ∧ (0 ≤ c.1 < height st ∧ 0 ≤ c.2 < width st)
    ∧ (c ∉ moves_made st) ∧ (c ∉ mines st) ∧ (c ∉ safes st).
Proof.
  unfold nearby_cells. rewrite list_elem_of_bind. split.
  - intros (i & Hj & Hi). apply list_elem_of_bind in Hj as (j & Hc & Hj).
    apply elem_of_seqZ in Hi, Hj.
    case_bool_decide as Hknown; [by apply elem_of_nil in Hc|].
    case_bool_decide as Hbounds; [|by apply elem_of_nil in Hc].
    apply list_elem_of_singleton in Hc as ->. simpl.
    repeat split; try lia; tauto.
  - intros ((Hi & Hj) & Hb & Hm & Hn & Hs).
    destruct c as [i j]; cbn [fst snd] in *.
    exists i. split; [|apply elem_of_seqZ; lia].
    apply list_elem_of_bind. exists j. split; [|apply elem_of_seqZ; lia].
    rewrite bool_decide_eq_false_2 by tauto.
    rewrite bool_decide_eq_true_2 by done.
    by apply list_elem_of_singleton.
Qed.

(** C7: [add_knowledge cell n] runs [mark_cells(True)] on a knowledge base
    that is the old one, every sentence told that [cell] is safe, followed
    by one new sentence.  The cells of the new sentence are exactly the
    cells within one row and one column of [cell] that are on the board,
    are not [cell], and were not in [moves_made], [mines] or [safes]; its
    count is [n], whatever was excluded. *)
Theorem add_knowledge_new_sentence (st : Agent) (cell : Cell) (n : Z)
    (fuel : nat) :
  add_knowledge fuel cell n st = mark_cells fuel true (add_sentence cell n st)
  ∧ ∃ s, knowledge (add_sentence cell n st)
           = (Sent.mark_safe cell <$> knowledge st) ++ [s]
       ∧ count s = n
       ∧ ∀ c, c ∈ cells s ↔
           (cell.1 - 1 ≤ c.1 ≤ cell.1 + 1 ∧ cell.2 - 1 ≤ c.2 ≤ cell.2 + 1)
           ∧ (0 ≤ c.1 < height st ∧ 0 ≤ c.2 < width st)
           ∧ c ≠ cell
           ∧ (c ∉ moves_made st) ∧ (c ∉ mines st) ∧ (c ∉ safes st).
Proof.
  split; [done|]. eexists. split; [reflexivity|]. split; [done|].
  intros c. simpl. rewrite elem_of_list_to_set, elem_of_nearby_cells. simpl.
  set_solver.
Qed.

(** ** The resolution pass *)

Section Resolution.

Implicit Types (s : Sentence) (kb : list Sentence).

Lemma qualifies_spec s1 s2 :
  qualifies s1 s2 = true ↔ s2 ≠ s1 ∧ cells s2 ⊆ cells s1.
Proof.
  unfold qualifies. by rewrite andb_true_iff, !bool_decide_eq_true.
Qed.

Lemma sentence_eq s1 s2 :
  cells s1 = cells s2 → count s1 = count s2 → s1 = s2.
Proof. destruct s1, s2; simpl; congruence. Qed.

(** Deriving twice from the same [s1] gives the subset back. *)
Lemma new_sentence_twice s1 s2 :
  cells s2 ⊆ cells s1 → new_sentence s1 (new_sentence s1 s2) = s2.
Proof.
  intros Hsub. apply sentence_eq; simpl; [|lia].
  apply set_eq. intros c. rewrite !elem_of_difference.
  destruct (decide (c ∈ cells s2)); set_solver.
Qed.

Lemma feeds_new_sentence s1 s2 : feeds s1 s2 → feeds s1 (new_sentence s1 s2).
Proof.
  intros [Hq Hne]. apply qualifies_spec in Hq as [Hne' Hsub]. split.
  - apply qualifies_spec. split; [done|]. simpl. set_solver.
  - by rewrite new_sentence_twice.
Qed.

(** A sentence that passes the test is either such a feeder or leads to
    a copy of [s1]. *)
Lemma qualifies_feeds_or_copy s1 s2 :
  qualifies s1 s2 = true → feeds s1 s2 ∨ new_sentence s1 s2 = s1.
Proof.
  intros Hq. destruct (decide (new_sentence s1 s2 = s1)); [by right|].
  by left.
Qed.

Lemma inner_loop_eq fuel s1 j kb found :
  inner_loop fuel s1 j kb found =
  match kb !! j with
  | None => Returned (kb, found)
  | Some s2 =>
    match fuel with
    | O => OutOfFuel (kb, found)
    | S fuel' =>
      if qualifies s1 s2
      then inner_loop fuel' s1 (S j) (kb ++ [new_sentence s1 s2]) true
      else inner_loop fuel' s1 (S j) kb found
    end
  end.
Proof. by destruct fuel. Qed.

Lemma outer_loop_eq fuel i r :
  outer_loop fuel i r =
  match res_knowledge r !! i with
  | None => Returned r
  | Some s1 =>
    match fuel with
    | O => OutOfFuel r
    | S fuel' =>
      match inner_loop fuel' s1 0 (res_knowledge r) (res_subset_found r) with
      | OutOfFuel (kb, found) =>
          OutOfFuel (mkResolution kb found (res_changed_sentences r)
                       (res_changed r))
      | Returned (kb, found) =>
          if found
          then outer_loop fuel' (S i)
                 (mkResolution kb found
                    (res_changed_sentences r ++ [s1]) true)
          else outer_loop fuel' (S i)
                 (mkResolution kb found (res_changed_sentences r)
                    (res_changed r))
      end
    end
  end.
Proof. by destruct fuel. Qed.

(** The inner loop never reaches the end of the list once a feeder lies
    ahead: visiting it appends another feeder. *)
Lemma inner_loop_feeds fuel s1 j kb found k s2 :
  (j ≤ k)%nat → kb !! k = Some s2 → feeds s1 s2 →
  returned (inner_loop fuel s1 j kb found) = false.
Proof.
  revert j kb found k s2.
  induction fuel as [|fuel IH]; intros j kb found k s2 Hjk Hk Hfeeds;
    rewrite inner_loop_eq;
    pose proof (lookup_lt_Some _ _ _ Hk) as Hlen;
    (destruct (kb !! j) as [s|] eqn:Hj;
      [|apply lookup_ge_None in Hj; lia]); [done|].
  destruct (decide (j = k)) as [->|Hne].
  - assert (s = s2) as -> by congruence.
    destruct Hfeeds as [Hq Hnew]. rewrite Hq.
    apply (IH _ _ _ (length kb) (new_sentence s1 s2)); [lia| |].
    + by apply list_lookup_middle.
    + by apply feeds_new_sentence.
  - destruct (qualifies s1 s).
    + apply (IH _ _ _ k s2); [lia| |done]. by rewrite lookup_app_l.
    + apply (IH _ _ _ k s2); [lia|done..].
Qed.

(** Whatever the outcome, the inner loop only appends. *)
Lemma inner_loop_extends fuel s1 j kb found :
  ∃ extra, (state_of (inner_loop fuel s1 j kb found)).1 = kb ++ extra.
Proof.
  revert j kb found.
  induction fuel as [|fuel IH]; intros j kb found; rewrite inner_loop_eq;
    (destruct (kb !! j) as [s|]; [|by exists []; rewrite app_nil_r]).
  - exists []. by rewrite app_nil_r.
  - destruct (qualifies s1 s).
    + destruct (IH (S j) (kb ++ [new_sentence s1 s]) true) as [extra ->].
      eexists. by rewrite <- app_assoc.
    + apply IH.
Qed.

(** A completed inner loop has appended the sentence derived from every
    sentence ahead that passes the test. *)
Lemma inner_loop_appends fuel s1 j kb found kb' found' :
  inner_loop fuel s1 j kb found = Returned (kb', found') →
  ∃ extra, kb' = kb ++ extra
    ∧ ∀ k s2, (j ≤ k)%nat → kb !! k = Some s2 → qualifies s1 s2 = true →
              new_sentence s1 s2 ∈ extra.
Proof.
  revert j kb found.
  induction fuel as [|fuel IH]; intros j kb found; rewrite inner_loop_eq;
    (destruct (kb !! j) as [s|] eqn:Hj;
      [|intros [= <- <-]; exists []; split; [by rewrite app_nil_r|];
        intros k s2 Hjk Hk; apply lookup_ge_None in Hj;
        apply lookup_lt_Some in Hk; lia]); [done|].
  destruct (qualifies s1 s) eqn:Hq; intros Hrun.
  - apply IH in Hrun as (extra & -> & Hall).
    exists (new_sentence s1 s :: extra). split; [by rewrite <- app_assoc|].
    intros k s2 Hjk Hk Hq2. destruct (decide (j = k)) as [->|Hne].
    + assert (s = s2) as -> by congruence. apply list_elem_of_here.
    + apply list_elem_of_further, (Hall k s2); [lia| |done].
      rewrite lookup_app_l; [done|]. by eapply lookup_lt_Some.
  - apply IH in Hrun as (extra & -> & Hall).
    exists extra. split; [done|].
    intros k s2 Hjk Hk Hq2. destruct (decide (j = k)) as [->|Hne].
    + congruence.
    + apply (Hall k s2); [lia|done..].
Qed.

(** Without a sentence that passes the test the inner loop changes
    nothing, and [length kb - j] steps are enough for it. *)
Lemma inner_loop_idle fuel s1 j kb found :
  (∀ s2, s2 ∈ kb → qualifies s1 s2 = false) →
  state_of (inner_loop fuel s1 j kb found) = (kb, found)
  ∧ ((length kb - j ≤ fuel)%nat →
     inner_loop fuel s1 j kb found = Returned (kb, found)).
Proof.
  intros Hnone. revert j.
  induction fuel as [|fuel IH]; intros j; rewrite inner_loop_eq;
    (destruct (kb !! j) as [s|] eqn:Hj; [|done]).
  - split; [done|]. apply lookup_lt_Some in Hj. lia.
  - rewrite (Hnone s) by (by eapply list_elem_of_lookup_2).
    destruct (IH (S j)) as [Hst Hret]. split; [done|].
    intros Hfuel. apply Hret. lia.
Qed.

Lemma has_pair_spec kb :
  has_pair kb ↔ ∃ s1 s2, s1 ∈ kb ∧ s2 ∈ kb ∧ qualifies s1 s2 = true.
Proof.
  unfold has_pair. rewrite Exists_exists. split.
  - intros (s1 & H1 & H2). apply Exists_exists in H2 as (s2 & H2 & Hq).
    by exists s1, s2.
  - intros (s1 & s2 & H1 & H2 & Hq). exists s1. split; [done|].
    apply Exists_exists. by exists s2.
Qed.

Lemma has_pair_from_0 kb : has_pair kb ↔ pair_from 0 kb.
Proof.
  rewrite has_pair_spec. split.
  - intros (s1 & s2 & H1 & H2 & Hq).
    apply list_elem_of_lookup in H1 as [i Hi].
    exists i, s1, s2. split; [lia|done].
  - intros (i & s1 & s2 & _ & Hi & H2 & Hq). exists s1, s2.
    split; [by eapply list_elem_of_lookup_2|done].
Qed.

(** The outer loop never reaches the end of the list once a sentence
    ahead has a sentence passing the test against it: either the inner
    loop does not come back, or it leaves a copy of that sentence at the
    end of the list, which the outer loop has still to visit. *)
Lemma outer_loop_pair fuel i r :
  pair_from i (res_knowledge r) → returned (outer_loop fuel i r) = false.
Proof.
  revert i r.
  induction fuel as [|fuel IH];
    intros i r (i' & s1 & s2 & Hii' & Hi' & Hs2 & Hq);
    rewrite outer_loop_eq;
    pose proof (lookup_lt_Some _ _ _ Hi') as Hlen;
    (destruct (res_knowledge r !! i) as [s|] eqn:Hi;
      [|apply lookup_ge_None in Hi; lia]); [done|].
  destruct (inner_loop fuel s 0 (res_knowledge r) (res_subset_found r))
    as [[kb found]|[kb found]] eqn:Hin; [|done].
  assert (pair_from (S i) kb) as Hnext.
  { destruct (inner_loop_appends _ _ _ _ _ _ _ Hin) as (extra & -> & Hall).
    destruct (decide (i = i')) as [->|Hne].
    - assert (s = s1) as -> by congruence.
      pose proof Hs2 as Hs2'. apply list_elem_of_lookup in Hs2' as [k Hk].
      destruct (qualifies_feeds_or_copy s1 s2 Hq) as [Hfeeds|Hcopy].
      + pose proof (inner_loop_feeds fuel s1 0 _ (res_subset_found r) k s2
                      ltac:(lia) Hk Hfeeds) as Hdiv.
        by rewrite Hin in Hdiv.
      + pose proof (Hall k s2 ltac:(lia) Hk Hq) as Hnew.
        rewrite Hcopy in Hnew. apply list_elem_of_lookup in Hnew as [m Hm].
        exists (length (res_knowledge r) + m)%nat, s1, s2.
        split; [lia|]. split; [|split; [|done]].
        * rewrite lookup_app_r by lia. rewrite <- Hm. f_equal. lia.
        * apply elem_of_app. by left.
    - exists i', s1, s2. split; [lia|]. split; [|split; [|done]].
      + by rewrite lookup_app_l.
      + apply elem_of_app. by left. }
  destruct found; by apply IH.
Qed.

(** Whatever the outcome, the outer loop only appends to the list. *)
Lemma outer_loop_extends fuel i r :
  ∃ extra,
    res_knowledge (state_of (outer_loop fuel i r)) = res_knowledge r ++ extra.
Proof.
  revert i r.
  induction fuel as [|fuel IH]; intros i r; rewrite outer_loop_eq;
    (destruct (res_knowledge r !! i) as [s|];
      [|by exists []; rewrite app_nil_r]).
  - exists []. by rewrite app_nil_r.
  - destruct (inner_loop_extends fuel s 0 (res_knowledge r)
                (res_subset_found r)) as [extra Hextra].
    destruct (inner_loop _ _ _ _ _) as [[kb found]|[kb found]];
      simpl in Hextra; subst kb; [|by exists extra].
    destruct found;
      (edestruct IH as [extra' ->]; simpl;
       eexists; by rewrite <- app_assoc).
Qed.

(** On a list without such a pair the outer loop changes nothing:
    nothing is appended, no sentence is registered for removal and
    [changed] stays false; twice the length of the list is enough fuel. *)
Lemma outer_loop_idle fuel i r :
  ¬ has_pair (res_knowledge r) → res_subset_found r = false →
  state_of (outer_loop fuel i r) = r
  ∧ ((length (res_knowledge r) + (length (res_knowledge r) - i) ≤ fuel)%nat
     → outer_loop fuel i r = Returned r).
Proof.
  destruct r as [kb found cs ch]; simpl. intros Hnone ->. revert i.
  assert (∀ s, s ∈ kb → ∀ s2, s2 ∈ kb → qualifies s s2 = false) as Hq.
  { intros s1 H1 s2 H2. destruct (qualifies s1 s2) eqn:Hq; [|done].
    destruct Hnone. apply has_pair_spec. by exists s1, s2. }
  induction fuel as [|fuel IH]; intros i; rewrite outer_loop_eq; simpl;
    (destruct (kb !! i) as [s|] eqn:Hi; [|done]).
  - split; [done|]. apply lookup_lt_Some in Hi. lia.
  - destruct (inner_loop_idle fuel s 0 kb false) as [Hst Hret].
    { apply Hq. by eapply list_elem_of_lookup_2. }
    destruct (IH (S i)) as [Hst' Hret'].
    apply lookup_lt_Some in Hi.
    destruct (inner_loop fuel s 0 kb false) as [[kb' found']|[kb' found']];
      simpl in Hst; injection Hst as -> ->.
    + split; [done|]. intros Hfuel. apply Hret'. lia.
    + split; [done|]. intros Hfuel. discriminate Hret. lia.
Qed.

Lemma set_knowledge_id st : set_knowledge (knowledge st) st = st.
Proof. by destruct st. Qed.

(** A resolution pass on a knowledge base that holds a pair does not
    return; the state it has reached when the budget ends has the same
    sets and a knowledge base that extends the one it started from. *)
Lemma infer_knowledge_with_pair mc fuel st :
  has_pair (knowledge st) →
  ∃ extra, infer_knowledge_with mc fuel true st
           = OutOfFuel (set_knowledge (knowledge st ++ extra) st).
Proof.
  intros Hpair. unfold infer_knowledge_with; simpl.
  set (r := mkResolution (knowledge st) false [] false).
  pose proof (outer_loop_pair fuel 0 r) as Hdiv.
  destruct (outer_loop_extends fuel 0 r) as [extra Hextra].
  destruct (outer_loop fuel 0 r) as [r'|r'].
  - discriminate Hdiv. by apply has_pair_from_0.
  - exists extra. simpl in Hextra. by rewrite Hextra.
Qed.

(** A resolution pass on a knowledge base without pair changes nothing. *)
Lemma infer_knowledge_with_idle mc fuel st :
  ¬ has_pair (knowledge st) →
  (2 * length (knowledge st) ≤ fuel)%nat →
  infer_knowledge_with mc fuel true st = mc false st.
Proof.
  intros Hnone Hfuel. unfold infer_knowledge_with; simpl.
  set (r := mkResolution (knowledge st) false [] false).
  destruct (outer_loop_idle fuel 0 r Hnone eq_refl) as [_ Hret].
  rewrite Hret by (simpl; lia). simpl. by rewrite set_knowledge_id.
Qed.

Lemma mark_cells_step fuel st :
  mark_cells (S fuel) true st
  = infer_knowledge fuel (extraction st).2 (extraction st).1.
Proof. simpl. by destruct (extraction st). Qed.

Lemma mark_cells_false fuel st : mark_cells fuel false st = Returned st.
Proof. by destruct fuel. Qed.

Lemma infer_knowledge_false fuel st :
  infer_knowledge fuel false st = Returned st.
Proof. done. Qed.

(** The engine as a whole: [mark_cells(True)] makes one extraction pass.
    It returns the state after that pass when the pass marked nothing or
    when the knowledge base then holds no pair ... *)
Lemma mark_cells_returns fuel st :
  (extraction st).2 = false ∨ ¬ has_pair (knowledge (extraction st).1) →
  (2 * length (knowledge (extraction st).1) ≤ fuel)%nat →
  mark_cells (S fuel) true st = Returned (extraction st).1.
Proof.
  intros Hcase Hfuel. rewrite mark_cells_step.
  destruct (extraction st) as [st1 [|]]; simpl in *; [|done].
  destruct Hcase as [|Hnone]; [done|].
  unfold infer_knowledge. rewrite infer_knowledge_with_idle by done.
  apply mark_cells_false.
Qed.

(** ... and does not return otherwise. *)
Lemma mark_cells_diverges fuel st :
  (extraction st).2 = true → has_pair (knowledge (extraction st).1) →
  ∃ extra, mark_cells fuel true st
    = OutOfFuel (match fuel with
                 | O => st
                 | S _ => set_knowledge
                            (knowledge (extraction st).1 ++ extra)
                            (extraction st).1
                 end).
Proof.
  intros Hch Hpair. destruct fuel as [|fuel]; [by exists []|].
  rewrite mark_cells_step, Hch. unfold infer_knowledge.
  by apply infer_knowledge_with_pair.
Qed.

End Resolution.

(** ** The engine on the scenarios *)

Ltac decide_true := apply (bool_decide_unpack _); vm_compute; exact I.
Ltac decide_false :=
  let H := fresh in
  intros H; apply (bool_decide_pack _) in H; vm_compute in H; exact H.

(** A completed resolution pass found no pair, appended nothing and
    registered no sentence for removal. *)
Lemma completed_pass_is_idle fuel kb r :
  outer_loop fuel 0 (mkResolution kb false [] false) = Returned r →
  ¬ has_pair kb ∧ r = mkResolution kb false [] false.
Proof.
  intros Hrun. set (r0 := mkResolution kb false [] false) in *.
  assert (¬ has_pair kb) as Hnone.
  { intros Hpair. apply has_pair_from_0 in Hpair.
    pose proof (outer_loop_pair fuel 0 r0 Hpair) as Hdiv.
    by rewrite Hrun in Hdiv. }
  split; [done|].
  destruct (outer_loop_idle fuel 0 r0 Hnone eq_refl) as [Hst _].
  by rewrite Hrun in Hst.
Qed.

(** C1: [add_knowledge] does not always return.  On a 3 x 3 board with
    mines at (0,1), (1,0) and (2,2), the call for (0,0) with count 2
    returns; the call for (1,1) with count 3 that follows marks the two
    mines, enters the resolution pass and never leaves it, whatever the
    step budget. *)
Theorem add_knowledge_does_not_return :
  (∀ fuel, add_knowledge (S fuel) (0, 0) 2 (init 3 3)
           = Returned corner_revealed)
  ∧ (∀ fuel, returned (add_knowledge fuel (1, 1) 3 corner_revealed) = false).
Proof.
  split; intros fuel; unfold add_knowledge.
  - assert (extraction (add_sentence (0, 0) 2 (init 3 3))
            = (corner_revealed, false)) as Hx by (vm_compute; reflexivity).
    by rewrite mark_cells_step, Hx.
  - destruct (mark_cells_diverges fuel
                (add_sentence (1, 1) 3 corner_revealed)) as [extra ->];
      [vm_compute; reflexivity | decide_true | done].
Qed.

(** A pair in the knowledge base keeps the resolution pass from returning;
    the state reached when the budget ends extends the knowledge base and
    leaves the sets as they were. *)
Lemma superset_pair_diverges st s1 s2 fuel :
  s1 ∈ knowledge st → s2 ∈ knowledge st → qualifies s1 s2 = true →
  ∃ extra, infer_knowledge fuel true st
           = OutOfFuel (set_knowledge (knowledge st ++ extra) st).
Proof.
  intros H1 H2 Hq. apply infer_knowledge_with_pair, has_pair_spec.
  by exists s1, s2.
Qed.

(** C2: a sentence that serves as the superset of a pair is not removed:
    the resolution pass that finds the pair does not return, and the state
    it has reached when the budget ends still holds the whole knowledge
    base it started from, followed by the appended sentences. *)
Theorem superset_not_removed (st : Agent) (s1 s2 : Sentence) (fuel : nat) :
  s1 ∈ knowledge st → s2 ∈ knowledge st → qualifies s1 s2 = true →
  ∃ extra, infer_knowledge fuel true st
           = OutOfFuel (set_knowledge (knowledge st ++ extra) st).
Proof.
  intros H1 H2 Hq. by apply (superset_pair_diverges st s1 s2).
Qed.

Lemma superset_not_removed_witness :
  rest_sentence ∈ knowledge centre_extracted
  ∧ empty_sentence ∈ knowledge centre_extracted
  ∧ qualifies rest_sentence empty_sentence = true
  ∧ ∃ extra, infer_knowledge 9 true centre_extracted
             = OutOfFuel (set_knowledge (knowledge centre_extracted ++ extra)
                            centre_extracted).
Proof.
  assert (rest_sentence ∈ knowledge centre_extracted) as H1 by decide_true.
  assert (empty_sentence ∈ knowledge centre_extracted) as H2 by decide_true.
  assert (qualifies rest_sentence empty_sentence = true) as Hq
    by (vm_compute; reflexivity).
  repeat split; try assumption.
  exact (superset_not_removed centre_extracted rest_sentence empty_sentence
           9 H1 H2 Hq).
Defined.

(** C3: on the knowledge base made of A = ({(0,0),(0,1),(0,2)}, 1) and
    B = ({(0,0),(0,1)}, 1), in either order, the engine does not resolve A
    against B.  Entered as [add_knowledge] enters it, by [mark_cells(True)],
    it returns the state unchanged, since the extraction pass marks nothing
    and the resolution pass is then skipped.  The resolution pass itself,
    [infer_knowledge(True)], never returns: (0,2) is not marked safe and A
    stays in the knowledge base. *)
Theorem example_not_resolved (st : Agent) (fuel : nat) :
  st = example_AB ∨ st = example_BA →
  mark_cells (S fuel) true st = Returned st
  ∧ returned (infer_knowledge fuel true st) = false
  ∧ ((0, 2) ∉ safes (state_of (infer_knowledge fuel true st)))
  ∧ sentence_A ∈ knowledge (state_of (infer_knowledge fuel true st)).
Proof.
  intros Hst.
  assert (extraction st = (st, false)) as Hx
    by (destruct Hst as [-> | ->]; vm_compute; reflexivity).
  assert (sentence_A ∈ knowledge st) as HA
    by (destruct Hst as [-> | ->]; decide_true).
  assert (sentence_B ∈ knowledge st) as HB
    by (destruct Hst as [-> | ->]; decide_true).
  assert (safes st = ∅) as Hsafes by (by destruct Hst as [-> | ->]).
  split; [by rewrite mark_cells_step, Hx|].
  destruct (superset_pair_diverges st sentence_A sentence_B fuel)
    as [extra ->]; [done | done | vm_compute; reflexivity |].
  simpl. rewrite Hsafes. split; [done|]. split; [set_solver|].
  apply elem_of_app. by left.
Qed.

Lemma example_not_resolved_witness :
  (example_AB = example_AB ∨ example_AB = example_BA)
  ∧ mark_cells 10 true example_AB = Returned example_AB
  ∧ returned (infer_knowledge 9 true example_AB) = false
  ∧ ((0, 2) ∉ safes (state_of (infer_knowledge 9 true example_AB)))
  ∧ sentence_A ∈ knowledge (state_of (infer_knowledge 9 true example_AB)).
Proof.
  split; [by left|].
  exact (example_not_resolved example_AB 9 (or_introl eq_refl)).
Defined.

(** C4 as the specification states it fails: after [add_knowledge] for
    (1,1) with count 1 and then for (0,1) with count 1 on a fresh agent of
    a 3 x 3 board, both calls having returned, (0,0) is not in [mines]. *)
Lemma scenario_3x3_counterexample :
  add_knowledge 1 (1, 1) 1 (init 3 3) = Returned centre_revealed
  ∧ add_knowledge 1 (0, 1) 1 centre_revealed = Returned centre_top_revealed
  ∧ ¬ ((0, 0) ∈ mines centre_top_revealed).
Proof.
  split; [vm_compute; reflexivity|]. split; [vm_compute; reflexivity|].
  decide_false.
Qed.

(** C4, amended: on a fresh agent of a 3 x 3 board the calls of
    [add_knowledge] for (1,1) with count 1 and then for (0,1) with count 1
    both return, with any budget of at least one step, and leave [mines]
    empty: no cell is deduced to be a mine, and [moves_made] holds the two
    revealed cells only. *)
Theorem scenario_3x3_no_mine_deduced (fuel : nat) :
  add_knowledge (S fuel) (1, 1) 1 (init 3 3) = Returned centre_revealed
  ∧ add_knowledge (S fuel) (0, 1) 1 centre_revealed
    = Returned centre_top_revealed
  ∧ mines centre_top_revealed = ∅
  ∧ moves_made centre_top_revealed = {[ (1, 1); (0, 1) ]}.
Proof.
  assert (extraction (add_sentence (1, 1) 1 (init 3 3))
          = (centre_revealed, false)) as Hx1 by (vm_compute; reflexivity).
  assert (extraction (add_sentence (0, 1) 1 centre_revealed)
          = (centre_top_revealed, false)) as Hx2 by (vm_compute; reflexivity).
  unfold add_knowledge. rewrite !mark_cells_step, Hx1, Hx2.
  repeat split; vm_compute; reflexivity.
Qed.

(** C5: the bound [0 ≤ count ≤ |cells|] is broken by truthful clues.  On a
    1 x 3 board with its mine at (0,1), [add_knowledge] for (0,0) with
    count 1 returns with (0,1) marked as a mine; [add_knowledge] for (0,2)
    with count 1 then returns with a knowledge base that holds the
    sentence with no cell and count 1: the known mine was left out of the
    cells and the count was not lowered. *)
Theorem count_exceeds_cells :
  (∀ fuel, add_knowledge (3 + fuel) (0, 0) 1 (init 1 3)
           = Returned row_left_revealed)
  ∧ mines row_left_revealed = {[ (0, 1) ]}
  ∧ (∀ fuel, add_knowledge (S fuel) (0, 2) 1 row_left_revealed
             = Returned row_both_revealed)
  ∧ knowledge row_both_revealed
    = [ {| cells := ∅; count := 0 |}; {| cells := ∅; count := 1 |} ]
  ∧ ¬ count_in_range {| cells := ∅; count := 1 |}.
Proof.
  split; [|split; [|split; [|split]]].
  - intros fuel. unfold add_knowledge.
    assert (extraction (add_sentence (0, 0) 1 (init 1 3))
            = (row_left_revealed, true)) as Hx by (vm_compute; reflexivity).
    pose proof (mark_cells_returns (2 + fuel)
                  (add_sentence (0, 0) 1 (init 1 3))) as Hret.
    rewrite Hx in Hret. cbn [fst snd] in Hret. apply Hret.
    + right. decide_false.
    + change (length (knowledge row_left_revealed)) with 1%nat. lia.
  - vm_compute. reflexivity.
  - intros fuel. unfold add_knowledge.
    assert (extraction (add_sentence (0, 2) 1 row_left_revealed)
            = (row_both_revealed, false)) as Hx by (vm_compute; reflexivity).
    by rewrite mark_cells_step, Hx.
  - vm_compute. reflexivity.
  - unfold count_in_range. cbn [cells count]. rewrite size_empty. lia.
Qed.


(** * Further properties *)

(** ** Sentence: marking and the count *)

Lemma size_remove_cell (X : gset Cell) cell :
  cell ∈ X → size X = S (size (X ∖ {[cell]})).
Proof.
  intros Hin. rewrite (union_difference_singleton_L cell X Hin) at 1.
  rewrite size_union by set_solver. by rewrite size_singleton.
Qed.

(** X1: [Sentence.mark_mine] leaves the number of cells minus the count
    as it was; so a sentence for which [known_mines] answers still gets an
    answer after any of its cells, or any other cell, is marked as a
    mine. *)
Theorem mark_mine_keeps_safe_number (cell : Cell) (s : Sentence) :
  Z.of_nat (size (cells (Sent.mark_mine cell s)))
    - count (Sent.mark_mine cell s)
  = Z.of_nat (size (cells s)) - count s
  ∧ (is_Some (known_mines s) → is_Some (known_mines (Sent.mark_mine cell s))).
Proof.
  assert (Z.of_nat (size (cells (Sent.mark_mine cell s)))
            - count (Sent.mark_mine cell s)
          = Z.of_nat (size (cells s)) - count s) as Hkeep.
  { unfold Sent.mark_mine. destruct (decide (cell ∈ cells s)) as [Hin|];
      [|done]. cbn [cells count]. rewrite (size_remove_cell _ _ Hin). lia. }
  split; [done|]. unfold known_mines.
  destruct (decide (Z.of_nat (size (cells s)) = count s)); [|by intros []].
  intros _. rewrite decide_True by lia. done.
Qed.

(** X2: the bound [0 ≤ count ≤ |cells|] survives [Sentence.mark_mine] when
    the count is positive and survives [Sentence.mark_safe] when the count
    is below the number of cells. *)
Theorem marking_keeps_count_in_range (cell : Cell) (s : Sentence) :
  count_in_range s → 0 < count s < Z.of_nat (size (cells s)) →
  count_in_range (Sent.mark_mine cell s)
  ∧ count_in_range (Sent.mark_safe cell s).
Proof.
  unfold count_in_range, Sent.mark_mine, Sent.mark_safe. intros Hr Hc.
  destruct (decide (cell ∈ cells s)) as [Hin|]; [|done].
  cbn [cells count]. rewrite (size_remove_cell _ _ Hin) in Hr, Hc. lia.
Qed.

Lemma marking_keeps_count_in_range_witness :
  count_in_range sentence_A
  ∧ 0 < count sentence_A < Z.of_nat (size (cells sentence_A))
  ∧ count_in_range (Sent.mark_mine (0, 1) sentence_A)
  ∧ count_in_range (Sent.mark_safe (0, 1) sentence_A).
Proof.
  assert (count_in_range sentence_A) as Hr by (vm_compute; split; discriminate).
  assert (0 < count sentence_A < Z.of_nat (size (cells sentence_A))) as Hc
    by (vm_compute; split; reflexivity).
  split; [exact Hr|]. split; [exact Hc|].
  exact (marking_keeps_count_in_range (0, 1) sentence_A Hr Hc).
Defined.

(** ** MinesweeperAI: marking *)

Lemma sentence_mark_mine_clears cell s : cell ∉ cells (Sent.mark_mine cell s).
Proof.
  unfold Sent.mark_mine. destruct (decide (cell ∈ cells s)); [|done].
  cbn [cells]. set_solver.
Qed.

Lemma sentence_mark_safe_clears cell s : cell ∉ cells (Sent.mark_safe cell s).
Proof.
  unfold Sent.mark_safe. destruct (decide (cell ∈ cells s)); [|done].
  cbn [cells]. set_solver.
Qed.

(** X3: after [mark_mine] of the agent the cell is in [mines] and occurs
    in no sentence of the knowledge base; after [mark_safe] it is in
    [safes] and occurs in no sentence.  Neither adds or drops a
    sentence. *)
Theorem marked_cell_leaves_knowledge (cell : Cell) (st : Agent) :
  (cell ∈ mines (mark_mine cell st)
   ∧ length (knowledge (mark_mine cell st)) = length (knowledge st)
   ∧ ∀ s, s ∈ knowledge (mark_mine cell st) → cell ∉ cells s)
  ∧ (cell ∈ safes (mark_safe cell st)
     ∧ length (knowledge (mark_safe cell st)) = length (knowledge st)
     ∧ ∀ s, s ∈ knowledge (mark_safe cell st) → cell ∉ cells s).
Proof.
  unfold mark_mine, mark_safe; cbn [mines safes knowledge].
  rewrite !length_fmap.
  repeat split; try set_solver.
  - intros s Hs. apply list_elem_of_fmap in Hs as (s' & -> & _).
    apply sentence_mark_mine_clears.
  - intros s Hs. apply list_elem_of_fmap in Hs as (s' & -> & _).
    apply sentence_mark_safe_clears.
Qed.

Lemma sentence_mark_safe_idemp cell s :
  Sent.mark_safe cell (Sent.mark_safe cell s) = Sent.mark_safe cell s.
Proof.
  pose proof (sentence_mark_safe_clears cell s) as Hout.
  unfold Sent.mark_safe at 1. by rewrite decide_False.
Qed.

(** X4: [mark_safe] of the agent is idempotent, like [mark_mine]. *)
Theorem mark_safe_idempotent (st : Agent) (cell : Cell) :
  mark_safe cell (mark_safe cell st) = mark_safe cell st.
Proof.
  unfold mark_safe; simpl. f_equal.
  - set_solver.
  - rewrite <- list_fmap_compose. apply list_fmap_ext.
    intros _ s _. apply sentence_mark_safe_idemp.
Qed.

Lemma sentence_marks_commute a b s :
  a ≠ b →
  Sent.mark_mine a (Sent.mark_safe b s) = Sent.mark_safe b (Sent.mark_mine a s).
Proof.
  intros Hab. unfold Sent.mark_mine, Sent.mark_safe.
  repeat (match goal with
          | |- context [decide ?P] => destruct (decide P)
          end; cbn [cells count] in *);
    try done; try (exfalso; set_solver).
  f_equal. set_solver.
Qed.

(** X5: for two different cells, marking one as a mine and the other as
    safe gives the same agent in either order. *)
Theorem mark_mine_mark_safe_commute (a b : Cell) (st : Agent) :
  a ≠ b →
  mark_mine a (mark_safe b st) = mark_safe b (mark_mine a st).
Proof.
  intros Hab. unfold mark_mine, mark_safe; simpl. f_equal.
  rewrite <- !list_fmap_compose. apply list_fmap_ext.
  intros _ s _. by apply sentence_marks_commute.
Qed.

Lemma mark_mine_mark_safe_commute_witness :
  (0, 1) ≠ (0, 2)
  ∧ mark_mine (0, 1) (mark_safe (0, 2) example_AB)
    = mark_safe (0, 2) (mark_mine (0, 1) example_AB).
Proof.
  assert ((0, 1) ≠ ((0, 2) : Cell)) as Hne by discriminate.
  split; [exact Hne|].
  exact (mark_mine_mark_safe_commute (0, 1) (0, 2) example_AB Hne).
Defined.

(** ** mark_cells: marking the cells of a set *)

Lemma foldl_mark_mine l st :
  NoDup l →
  foldl (λ acc c, mark_mine c acc) st l
  = {| height := height st; width := width st;
       moves_made := moves_made st;
       mines := mines st ∪ list_to_set l;
       safes := safes st;
       knowledge := without_mines (list_to_set l) <$> knowledge st |}.
Proof.
  intros Hnodup. revert st.
  induction Hnodup as [|c l Hc Hnodup IH]; intros st; simpl.
  - destruct st as [h w mm mi sa kb]; simpl. f_equal; [set_solver|].
    rewrite <- (list_fmap_id kb) at 1. apply list_fmap_ext.
    intros _ [cs n] _. unfold without_mines; simpl. f_equal; [set_solver|].
    replace (cs ∩ ∅) with (∅ : gset Cell) by set_solver.
    rewrite size_empty. lia.
  - rewrite IH. unfold mark_mine.
    cbn [height width moves_made mines safes knowledge].
    f_equal; [set_solver|].
    rewrite <- list_fmap_compose. apply list_fmap_ext.
    intros _ s _. unfold compose, without_mines, Sent.mark_mine.
    assert (c ∉ (list_to_set l : gset Cell)) as Hc'
      by (by rewrite elem_of_list_to_set).
    change (list_to_set (c :: l)) with ({[c]} ∪ list_to_set l : gset Cell).
    destruct (decide (c ∈ cells s)) as [Hin|Hout]; cbn [cells count].
    + f_equal; [set_solver|].
      rewrite (size_remove_cell (cells s ∩ ({[c]} ∪ list_to_set l)) c)
        by set_solver.
      replace ((cells s ∩ ({[c]} ∪ list_to_set l)) ∖ {[c]})
        with ((cells s ∖ {[c]}) ∩ list_to_set l : gset Cell) by set_solver.
      lia.
    + f_equal; [set_solver|].
      replace (cells s ∩ ({[c]} ∪ list_to_set l))
        with (cells s ∩ list_to_set l : gset Cell) by set_solver.
      done.
Qed.

Lemma foldl_mark_safe l st :
  foldl (λ acc c, mark_safe c acc) st l
  = {| height := height st; width := width st;
       moves_made := moves_made st;
       mines := mines st;
       safes := safes st ∪ list_to_set l;
       knowledge := without_safes (list_to_set l) <$> knowledge st |}.
Proof.
  revert st. induction l as [|c l IH]; intros st; simpl.
  - destruct st as [h w mm mi sa kb]; simpl. f_equal; [set_solver|].
    rewrite <- (list_fmap_id kb) at 1. apply list_fmap_ext.
    intros _ [cs n] _. unfold without_safes; simpl. f_equal. set_solver.
  - rewrite IH. unfold mark_safe.
    cbn [height width moves_made mines safes knowledge].
    f_equal; [set_solver|].
    rewrite <- list_fmap_compose. apply list_fmap_ext.
    intros _ s _. unfold compose, without_safes, Sent.mark_safe.
    destruct (decide (c ∈ cells s)); cbn [cells count]; f_equal; set_solver.
Qed.

(** Marking the cells of a set, in closed form. *)
Lemma mark_all_eq (cs : gset Cell) (st : Agent) :
  mark_all mark_mine cs st
  = {| height := height st; width := width st;
       moves_made := moves_made st;
       mines := mines st ∪ cs;
       safes := safes st;
       knowledge := without_mines cs <$> knowledge st |}
  ∧ mark_all mark_safe cs st
    = {| height := height st; width := width st;
         moves_made := moves_made st;
         mines := mines st;
         safes := safes st ∪ cs;
         knowledge := without_safes cs <$> knowledge st |}.
Proof.
  unfold mark_all.
  rewrite foldl_mark_mine by apply NoDup_elements.
  rewrite foldl_mark_safe.
  by rewrite list_to_set_elements_L.
Qed.


(** ** mark_cells: the extraction pass *)

Lemma keeps_moves_refl st : keeps_moves st st.
Proof. by repeat split. Qed.

Lemma keeps_moves_trans st1 st2 st3 :
  keeps_moves st1 st2 → keeps_moves st2 st3 → keeps_moves st1 st3.
Proof. unfold keeps_moves. intros (?&?&?) (?&?&?). repeat split; congruence. Qed.

Lemma mark_all_frame mark cs st :
  (∀ c a, keeps_moves a (mark c a)
          ∧ length (knowledge (mark c a)) = length (knowledge a)) →
  keeps_moves st (mark_all mark cs st)
  ∧ length (knowledge (mark_all mark cs st)) = length (knowledge st).
Proof.
  intros Hmark. unfold mark_all. generalize (elements cs). intros l.
  revert st. induction l as [|c l IH]; intros st; simpl.
  - split; [apply keeps_moves_refl | done].
  - destruct (Hmark c st) as [Hk Hl]. destruct (IH (mark c st)) as [Hk' Hl'].
    split; [by eapply keeps_moves_trans | congruence].
Qed.

Lemma mark_mine_frame c a :
  keeps_moves a (mark_mine c a)
  ∧ length (knowledge (mark_mine c a)) = length (knowledge a).
Proof. split; [by repeat split | apply length_fmap]. Qed.

Lemma mark_safe_frame c a :
  keeps_moves a (mark_safe c a)
  ∧ length (knowledge (mark_safe c a)) = length (knowledge a).
Proof. split; [by repeat split | apply length_fmap]. Qed.

(** What one turn of the extraction loop can do to the agent and to the
    flag. *)
Lemma extract_at_cases st changed i :
  (keeps_moves st (extract_at (st, changed) i).1
   ∧ length (knowledge (extract_at (st, changed) i).1)
     = length (knowledge st))
  ∧ ((extract_at (st, changed) i).2 = true
     ∨ extract_at (st, changed) i = (st, changed)).
Proof.
  unfold extract_at.
  destruct (knowledge st !! i) as [s|];
    [|split; [split; [apply keeps_moves_refl|done] | by right]].
  assert (∃ st1 ch1,
    match known_mines s with
    | Some check_mines =>
        if decide (check_mines = ∅) then (st, changed)
        else (mark_all mark_mine check_mines st, true)
    | None => (st, changed)
    end = (st1, ch1)
    ∧ (keeps_moves st st1 ∧ length (knowledge st1) = length (knowledge st))
    ∧ (ch1 = true ∨ (st1, ch1) = (st, changed)))
    as (st1 & ch1 & -> & [Hk1 Hl1] & Hch1).
  { destruct (known_mines s) as [cs|]; [destruct (decide (cs = ∅))|];
      eexists _, _; (split; [reflexivity|]).
    - split; [split; [apply keeps_moves_refl|done] | by right].
    - split; [apply mark_all_frame, mark_mine_frame | by left].
    - split; [split; [apply keeps_moves_refl|done] | by right]. }
  destruct (knowledge st1 !! i) as [s'|]; [|done].
  destruct (known_safes s') as [cs|]; [destruct (decide (cs = ∅))|];
    cbn [fst snd]; try done.
  destruct (mark_all_frame mark_safe cs st1 mark_safe_frame) as [Hk2 Hl2].
  split; [|by left]. split; [by eapply keeps_moves_trans | congruence].
Qed.

Lemma foldl_extract_at l st changed :
  (keeps_moves st (foldl extract_at (st, changed) l).1
   ∧ length (knowledge (foldl extract_at (st, changed) l).1)
     = length (knowledge st))
  ∧ ((foldl extract_at (st, changed) l).2 = false →
     foldl extract_at (st, changed) l = (st, changed)).
Proof.
  revert st changed.
  induction l as [|i l IH]; intros st changed; cbn [foldl].
  - split; [split; [apply keeps_moves_refl|done] | done].
  - destruct (extract_at_cases st changed i) as [[Hk Hl] Hch].
    destruct (extract_at (st, changed) i) as [st1 ch1] eqn:Hstep;
      cbn [fst snd] in *.
    destruct (IH st1 ch1) as [[Hk' Hl'] Hfalse].
    split; [split; [by eapply keeps_moves_trans | congruence]|].
    intros Hflag. specialize (Hfalse Hflag). rewrite Hfalse in Hflag |- *.
    cbn [snd] in Hflag. destruct Hch as [->|Heq]; [done|]. done.
Qed.

(** What the extraction pass leaves alone. *)
Lemma extraction_keeps (st : Agent) :
  keeps_moves st (extraction st).1
  ∧ length (knowledge (extraction st).1) = length (knowledge st)
  ∧ ((extraction st).2 = false → (extraction st).1 = st).
Proof.
  unfold extraction.
  destruct (foldl_extract_at (seq 0 (length (knowledge st))) st false)
    as [[Hk Hl] Hfalse].
  split; [done|]. split; [done|].
  intros Hflag. by rewrite (Hfalse Hflag).
Qed.

(** X7: the extraction pass of [mark_cells] never changes the board size,
    [moves_made] or the number of sentences, and its flag is faithful:
    when it reports no change, the agent is exactly as before the pass. *)
Theorem extraction_frame (st : Agent) :
  keeps_moves st (extraction st).1
  ∧ length (knowledge (extraction st).1) = length (knowledge st)
  ∧ ((extraction st).2 = false → (extraction st).1 = st).
Proof. apply extraction_keeps. Qed.

(** ** The engine: what [mark_cells] and [infer_knowledge] leave alone *)

Lemma completed_resolution fuel st st' :
  infer_knowledge fuel true st = Returned st' →
  st' = st ∧ ¬ has_pair (knowledge st).
Proof.
  unfold infer_knowledge, infer_knowledge_with; cbn [negb].
  destruct (outer_loop fuel 0 (mkResolution (knowledge st) false [] false))
    as [r|r] eqn:Hrun; [|done].
  apply completed_pass_is_idle in Hrun as [Hnone ->].
  cbn [res_changed res_changed_sentences res_knowledge remove_changed foldl].
  rewrite set_knowledge_id, mark_cells_false. by intros [= <-].
Qed.

Lemma mark_cells_frame fuel changed st :
  keeps_moves st (state_of (mark_cells fuel changed st))
  ∧ (length (knowledge st)
     ≤ length (knowledge (state_of (mark_cells fuel changed st))))%nat.
Proof.
  destruct changed; [|by rewrite mark_cells_false].
  destruct fuel as [|fuel]; [done|]. rewrite mark_cells_step.
  destruct (extraction_keeps st) as (Hk & Hl & _).
  destruct (extraction st) as [st1 [|]]; cbn [fst snd] in *;
    [|rewrite infer_knowledge_false; split; [done|cbn [state_of]; lia]].
  destruct (decide (has_pair (knowledge st1))) as [Hpair|Hnone].
  - destruct (infer_knowledge_with_pair (mark_cells fuel) fuel st1 Hpair)
      as [extra Hrun]. unfold infer_knowledge. rewrite Hrun.
    cbn [state_of]. split.
    + eapply keeps_moves_trans; [done|]. by repeat split.
    + cbn [set_knowledge knowledge]. rewrite length_app. lia.
  - destruct (infer_knowledge fuel true st1) as [st2|st2] eqn:Hrun.
    + apply completed_resolution in Hrun as [-> _].
      split; [done | cbn [state_of]; lia].
    + unfold infer_knowledge, infer_knowledge_with in Hrun; cbn [negb] in Hrun.
      pose proof (outer_loop_extends fuel 0
                    (mkResolution (knowledge st1) false [] false))
        as [extra Hextra].
      destruct (outer_loop fuel 0 _) as [r|r] eqn:Hloop.
      * apply completed_pass_is_idle in Hloop as [_ ->].
        cbn [res_changed] in Hrun. by rewrite mark_cells_false in Hrun.
      * injection Hrun as <-. cbn [state_of] in *.
        cbn [res_knowledge] in Hextra. rewrite Hextra. split.
        -- eapply keeps_moves_trans; [done|]. by repeat split.
        -- cbn [set_knowledge knowledge]. rewrite length_app. lia.
Qed.

(** X8: the knowledge base never gets shorter: whatever the step budget
    and the outcome, the state reached by [add_knowledge] holds at least
    one sentence more than the state it started from. *)
Theorem knowledge_never_shrinks (st : Agent) (cell : Cell) (n : Z)
    (fuel : nat) :
  (length (knowledge st)
   < length (knowledge (state_of (add_knowledge fuel cell n st))))%nat.
Proof.
  unfold add_knowledge.
  destruct (mark_cells_frame fuel true (add_sentence cell n st)) as [_ Hl].
  assert (length (knowledge (add_sentence cell n st))
          = S (length (knowledge st))) as Hadd.
  { unfold add_sentence, mark_safe; cbn [set_knowledge knowledge].
    rewrite length_app, length_fmap. cbn [length]. lia. }
  lia.
Qed.

(** X9: [add_knowledge] adds the revealed cell, and nothing else, to
    [moves_made], puts it in [safes] and keeps the board size, whatever
    the step budget and the outcome. *)
Theorem add_knowledge_records_cell (st : Agent) (cell : Cell) (n : Z)
    (fuel : nat) :
  moves_made (state_of (add_knowledge fuel cell n st))
  = moves_made st ∪ {[cell]}
  ∧ cell ∈ safes (state_of (add_knowledge fuel cell n st))
  ∧ height (state_of (add_knowledge fuel cell n st)) = height st
  ∧ width (state_of (add_knowledge fuel cell n st)) = width st.
Proof.
  unfold add_knowledge.
  destruct (mark_cells_frame fuel true (add_sentence cell n st))
    as [(Hh & Hw & Hm) _].
  destruct (grows_mark_cells fuel true (add_sentence cell n st))
    as [_ _ Hsafes].
  rewrite Hh, Hw, Hm. repeat split.
  apply Hsafes. unfold add_sentence, mark_safe; cbn [set_knowledge safes].
  set_solver.
Qed.





(** X12: when [add_knowledge] returns, the agent it returns is the one
    left by a single extraction pass over the knowledge base with the new
    sentence: no sentence was derived or removed, and no second extraction
    pass marked anything. *)
Theorem add_knowledge_returns_one_pass (st st' : Agent) (cell : Cell)
    (n : Z) (fuel : nat) :
  add_knowledge fuel cell n st = Returned st' →
  st' = (extraction (add_sentence cell n st)).1
  ∧ ((extraction (add_sentence cell n st)).2 = false
     ∨ ¬ has_pair (knowledge st')).
Proof.
  unfold add_knowledge. destruct fuel as [|fuel]; [done|].
  rewrite mark_cells_step.
  destruct (extraction (add_sentence cell n st)) as [st1 [|]];
    cbn [fst snd].
  - intros Hrun. apply completed_resolution in Hrun as [-> Hnone].
    split; [done | by right].
  - intros [= <-]. split; [done | by left].
Qed.

Lemma add_knowledge_returns_one_pass_witness :
  add_knowledge 3 (0, 0) 1 (init 1 3) = Returned row_left_revealed
  ∧ row_left_revealed = (extraction (add_sentence (0, 0) 1 (init 1 3))).1
  ∧ ((extraction (add_sentence (0, 0) 1 (init 1 3))).2 = false
     ∨ ¬ has_pair (knowledge row_left_revealed)).
Proof.
  assert (add_knowledge 3 (0, 0) 1 (init 1 3) = Returned row_left_revealed)
    as Hrun by (vm_compute; reflexivity).
  split; [exact Hrun|].
  exact (add_knowledge_returns_one_pass (init 1 3) row_left_revealed (0, 0)
           1 3 Hrun).
Defined.

(** ** Moves: the results *)

(** X13: [make_safe_move] never raises.  A cell it returns is on the
    board, in [safes], and neither in [moves_made] nor in [mines]; it
    returns [None] exactly when the board has no such cell. *)
Theorem make_safe_move_result (st : Agent) (rnd : nat) :
  match (make_safe_move rnd st).1 with
  | Ret (Some c) =>
      c ∈ board_cells st ∧ c ∈ safes st
      ∧ (c ∉ moves_made st) ∧ (c ∉ mines st)
  | Ret None =>
      ∀ c, c ∈ board_cells st → c ∈ safes st →
           c ∈ moves_made st ∨ c ∈ mines st
  | Raise _ => False
  end.
Proof.
  unfold make_safe_move.
  destruct (safe_list st) as [|c0 l] eqn:Hlist; cbn [fst].
  - intros c Hboard Hsafe.
    destruct (decide (c ∈ moves_made st)) as [|Hm]; [by left|].
    destruct (decide (c ∈ mines st)) as [|Hn]; [by right|].
    exfalso. eapply (not_elem_of_nil c). rewrite <- Hlist.
    unfold safe_list. apply list_elem_of_filter. done.
  - destruct (choice rnd (c0 :: l)) as [c|e] eqn:Hc; [|done].
    apply choice_elem_of in Hc. rewrite <- Hlist in Hc.
    unfold safe_list in Hc. apply list_elem_of_filter in Hc.
    tauto.
Qed.

(** X14: [make_random_move] never returns [None].  A cell it returns is
    on the board and neither in [moves_made] nor in [mines]; it raises,
    with [IndexError], exactly when the board has no such cell. *)
Theorem make_random_move_result (st : Agent) (rnd : nat) :
  match (make_random_move rnd st).1 with
  | Ret (Some c) =>
      c ∈ board_cells st ∧ (c ∉ moves_made st) ∧ (c ∉ mines st)
  | Ret None => False
  | Raise e =>
      e = IndexError
      ∧ ∀ c, c ∈ board_cells st → c ∈ moves_made st ∨ c ∈ mines st
  end.
Proof.
  unfold make_random_move; cbn [fst].
  destruct (choice rnd (random_list st)) as [c|e] eqn:Hc.
  - apply choice_elem_of in Hc. unfold random_list in Hc.
    apply list_elem_of_filter in Hc. tauto.
  - split; [by destruct e|]. intros c Hboard.
    destruct (random_list st) as [|c0 l] eqn:Hlist; [|done].
    destruct (decide (c ∈ moves_made st)) as [|Hm]; [by left|].
    destruct (decide (c ∈ mines st)) as [|Hn]; [by right|].
    exfalso. eapply (not_elem_of_nil c). rewrite <- Hlist.
    unfold random_list. apply list_elem_of_filter. done.
Qed.

(** ** Minesweeper: the game board *)

Lemma position_in_range len i :
  0 ≤ i < Z.of_nat len → Game.position len i = Some (Z.to_nat i).
Proof.
  intros Hi. unfold Game.position.
  destruct (decide (i < 0)); [lia|]. by rewrite decide_True by lia.
Qed.

Lemma getitem_in_range {A : Type} (l : list A) i x :
  0 ≤ i → l !! Z.to_nat i = Some x → Game.getitem l i = Game.Ok x.
Proof.
  intros Hi Hx. unfold Game.getitem.
  pose proof (lookup_lt_Some _ _ _ Hx) as Hlen.
  rewrite position_in_range by lia. by rewrite Hx.
Qed.

Lemma position_Some len i k :
  Game.position len i = Some k →
  (k < len)%nat
  ∧ (Z.of_nat k = i ∨ (i < 0 ∧ Z.of_nat k = Z.of_nat len + i)).
Proof.
  unfold Game.position.
  destruct (decide (i < 0)); case_decide; intros [= <-]; try done;
    split; lia.
Qed.

Lemma position_None len i :
  Game.position len i = None ↔ i < - Z.of_nat len ∨ Z.of_nat len ≤ i.
Proof.
  unfold Game.position.
  destruct (decide (i < 0)); case_decide; split; intros Hcase;
    try done; lia.
Qed.

Lemma position_wraps len i :
  - Z.of_nat len ≤ i < 0 →
  Game.position len i = Game.position len (i + Z.of_nat len).
Proof.
  intros Hi. unfold Game.position.
  destruct (decide (i < 0)); [|lia].
  destruct (decide (i + Z.of_nat len < 0)); [lia|].
  rewrite decide_True by lia. rewrite decide_True by lia. f_equal. lia.
Qed.

(** Reading a cell of a consistent board with indices on the board. *)
Lemma at_cell_on_board g i j :
  Game.consistent g →
  0 ≤ i < Game.height g → 0 ≤ j < Game.width g →
  Game.at_cell g i j = Game.Ok (bool_decide ((i, j) ∈ Game.mines g))
  ∧ ∃ row, Game.board g !! Z.to_nat i = Some row
           ∧ is_Some (row !! Z.to_nat j).
Proof.
  intros [Hrows Hcols Hmines _] Hi Hj.
  destruct (lookup_lt_is_Some_2 (Game.board g) (Z.to_nat i)) as [row Hrow];
    [lia|].
  pose proof (Hcols _ _ Hrow) as Hlen.
  destruct (lookup_lt_is_Some_2 row (Z.to_nat j)) as [b Hb]; [lia|].
  split; [|by exists row; eauto].
  unfold Game.at_cell. rewrite (getitem_in_range _ _ _ (proj1 Hi) Hrow).
  rewrite (getitem_in_range _ _ _ (proj1 Hj) Hb). f_equal.
  pose proof (Hmines (Z.to_nat i) (Z.to_nat j) row Hrow) as Hiff.
  rewrite !Z2Nat.id in Hiff by lia.
  destruct b.
  - symmetry. apply bool_decide_eq_true. by apply Hiff.
  - symmetry. apply bool_decide_eq_false. intros Hin.
    apply Hiff in Hin. congruence.
Qed.

Lemma empty_board_consistent h w :
  Game.consistent (Game.mk h w ∅ (Game.empty_board h w) ∅).
Proof.
  split; cbn [Game.board Game.height Game.width Game.mines].
  - unfold Game.empty_board. by rewrite length_replicate.
  - intros i row Hrow. unfold Game.empty_board in Hrow.
    apply lookup_replicate in Hrow as [-> _]. by rewrite length_replicate.
  - intros i j row Hrow. unfold Game.empty_board in Hrow.
    apply lookup_replicate in Hrow as [-> _]. split; [|set_solver].
    intros Hj. by apply lookup_replicate in Hj as [? _].
  - set_solver.
Qed.

(** Writing [True] at a cell of the board that was [False] and adding the
    cell to [mines] keeps the game consistent. *)
Lemma set_cell_consistent g i j :
  Game.consistent g →
  0 ≤ i < Game.height g → 0 ≤ j < Game.width g →
  ∃ board',
    Game.set_cell g i j = Game.Ok board'
    ∧ Game.consistent
        {| Game.height := Game.height g; Game.width := Game.width g;
           Game.mines := Game.mines g ∪ {[(i, j)]};
           Game.board := board';
           Game.mines_found := Game.mines_found g |}.
Proof.
  intros Hg Hi Hj.
  destruct (at_cell_on_board g i j Hg Hi Hj) as (_ & row & Hrow & Hb).
  destruct Hg as [Hrows Hcols Hmines Hon].
  pose proof (Hcols _ _ Hrow) as Hlen.
  exists (<[Z.to_nat i := <[Z.to_nat j := true]> row]> (Game.board g)).
  split.
  { unfold Game.set_cell, Game.setitem.
    rewrite (getitem_in_range _ _ _ (proj1 Hi) Hrow).
    rewrite position_in_range by lia. by rewrite position_in_range by lia. }
  split; cbn [Game.board Game.height Game.width Game.mines].
  - by rewrite length_insert.
  - intros i' row' Hrow'.
    destruct (decide (i' = Z.to_nat i)) as [->|Hne].
    + rewrite list_lookup_insert_eq in Hrow' by lia.
      injection Hrow' as <-. by rewrite length_insert.
    + rewrite list_lookup_insert_ne in Hrow' by done. by eapply Hcols.
  - intros i' j' row' Hrow'. rewrite elem_of_union, elem_of_singleton.
    destruct (decide (i' = Z.to_nat i)) as [->|Hne].
    + rewrite list_lookup_insert_eq in Hrow' by lia.
      injection Hrow' as <-.
      destruct (decide (j' = Z.to_nat j)) as [->|Hne'].
      * rewrite list_lookup_insert_eq by lia. rewrite !Z2Nat.id by lia.
        split; [by right | done].
      * rewrite list_lookup_insert_ne by done.
        rewrite (Hmines _ j' _ Hrow). split; [by left|].
        intros [|[= _ Heq]]; [done | lia].
    + rewrite list_lookup_insert_ne in Hrow' by done.
      rewrite (Hmines _ j' _ Hrow'). split; [by left|].
      intros [|[= Heq _]]; [done | lia].
  - intros c Hc. apply elem_of_union in Hc as [Hc|Hc]; [by apply Hon|].
    apply elem_of_singleton in Hc as ->. done.
Qed.

Lemma randrange_cases n r :
  (n ≤ 0 ∧ Game.randrange n r = Game.Err Game.ValueError)
  ∨ (0 < n ∧ ∃ i, Game.randrange n r = Game.Ok i ∧ 0 ≤ i < n).
Proof.
  unfold Game.randrange. destruct (decide (n ≤ 0)); [by left|].
  right. split; [lia|]. eexists. split; [done|].
  apply Z.mod_pos_bound. lia.
Qed.

(** The loop of [__init__] keeps the game consistent; it stops with the
    requested number of mines, and it raises only when the board is empty,
    with [ValueError]. *)
Lemma place_outcome draws target g :
  Game.consistent g →
  match Game.place draws target g with
  | Game.Built g' =>
      Game.consistent g' ∧ Z.of_nat (size (Game.mines g')) = target
      ∧ Game.height g' = Game.height g ∧ Game.width g' = Game.width g
      ∧ Game.mines_found g' = Game.mines_found g
  | Game.Raised e =>
      e = Game.ValueError ∧ (Game.height g ≤ 0 ∨ Game.width g ≤ 0)
      ∧ Z.of_nat (size (Game.mines g)) ≠ target
  | Game.Drawing g' =>
      Game.consistent g' ∧ Z.of_nat (size (Game.mines g')) ≠ target
      ∧ Game.height g' = Game.height g ∧ Game.width g' = Game.width g
  end.
Proof.
  revert g. induction draws as [|[r1 r2] draws IH]; intros g Hg;
    cbn [Game.place];
    (destruct (decide (Z.of_nat (size (Game.mines g)) = target));
      [done|]); [done|].
  destruct (randrange_cases (Game.height g) r1)
    as [[Hh ->]|[Hh (i & -> & Hi)]]; [by auto|].
  destruct (randrange_cases (Game.width g) r2)
    as [[Hw ->]|[Hw (j & -> & Hj)]]; [by auto|].
  destruct (at_cell_on_board g i j Hg Hi Hj) as (-> & _).
  destruct (bool_decide ((i, j) ∈ Game.mines g)).
  - specialize (IH g Hg).
    destruct (Game.place draws target g) as [g'|e|g']; [done| |done].
    destruct IH as (_ & [|] & _); lia.
  - destruct (set_cell_consistent g i j Hg Hi Hj) as (board' & -> & Hg').
    specialize (IH _ Hg').
    destruct (Game.place draws target _) as [g'|e|g'];
      cbn [Game.height Game.width Game.mines Game.mines_found] in IH;
      [done| |done].
    destruct IH as (_ & [|] & _); lia.
Qed.

(** The outcomes of the construction of a game. *)
Lemma game_construction_lemma (h w target : Z) (draws : list (Z * Z)) :
  match Game.init h w target draws with
  | Game.Built g =>
      Game.consistent g
      ∧ Z.of_nat (size (Game.mines g)) = target
      ∧ Game.height g = h ∧ Game.width g = w
      ∧ Game.mines_found g = ∅
      ∧ (Game.won g = true ↔ target = 0)
  | Game.Raised e =>
      e = Game.ValueError ∧ (h ≤ 0 ∨ w ≤ 0) ∧ target ≠ 0
  | Game.Drawing g =>
      Game.consistent g ∧ Z.of_nat (size (Game.mines g)) ≠ target
      ∧ Game.height g = h ∧ Game.width g = w
  end.
Proof.
  unfold Game.init.
  pose proof (place_outcome draws target _ (empty_board_consistent h w))
    as Hout.
  destruct (Game.place draws target _) as [g|e|g];
    cbn [Game.height Game.width Game.mines Game.mines_found] in Hout.
  - destruct Hout as (Hg & Hsize & Hh & Hw & Hfound).
    split_and!; try done. split.
    + unfold Game.won. intros Hwon. apply bool_decide_eq_true in Hwon.
      rewrite Hfound in Hwon. rewrite <- Hwon, size_empty in Hsize. lia.
    + unfold Game.won. intros ->. apply bool_decide_eq_true.
      rewrite Hfound. symmetry. apply leibniz_equiv, size_empty_iff. lia.
  - destruct Hout as (He & Hempty & Hsize). rewrite size_empty in Hsize.
    split_and!; done || lia.
  - done.
Qed.

(** X15: how [Minesweeper.__init__] can end.  A game that is built has
    the requested size and number of mines, a board with [True] exactly at
    its mines, all of them on the board, no mine found yet, and is won
    only if no mine was requested.  The construction raises only
    [ValueError], and only on an empty board asked for some mine; while it
    is still drawing, the game is consistent too. *)
Theorem game_construction_outcome (h w target : Z) (draws : list (Z * Z)) :
  match Game.init h w target draws with
  | Game.Built g =>
      Game.consistent g
      ∧ Z.of_nat (size (Game.mines g)) = target
      ∧ Game.height g = h ∧ Game.width g = w
      ∧ Game.mines_found g = ∅
      ∧ (Game.won g = true ↔ target = 0)
  | Game.Raised e =>
      e = Game.ValueError ∧ (h ≤ 0 ∨ w ≤ 0) ∧ target ≠ 0
  | Game.Drawing g =>
      Game.consistent g ∧ Z.of_nat (size (Game.mines g)) ≠ target
      ∧ Game.height g = h ∧ Game.width g = w
  end.
Proof. apply game_construction_lemma. Qed.



(** Lists of pairs made by two nested loops. *)
Lemma elem_of_grid (l1 l2 : list Z) (c : Cell) :
  c ∈ (i ← l1; j ← l2; [(i, j)]) ↔ c.1 ∈ l1 ∧ c.2 ∈ l2.
Proof.
  rewrite list_elem_of_bind. split.
  - intros (i & Hj & Hi). apply list_elem_of_bind in Hj as (j & Hc & Hj).
    by apply list_elem_of_singleton in Hc as ->.
  - intros [Hi Hj]. exists c.1. split; [|done].
    apply list_elem_of_bind. exists c.2. split; [|done].
    apply list_elem_of_singleton. by destruct c.
Qed.

Lemma NoDup_grid (l1 l2 : list Z) :
  NoDup l1 → NoDup l2 → NoDup (i ← l1; j ← l2; [(i, j) : Cell]).
Proof.
  intros H1 H2. apply NoDup_bind; [| |done].
  - intros i1 i2 c _ _ Hc1 Hc2.
    apply list_elem_of_bind in Hc1 as (j1 & Hc1 & _).
    apply list_elem_of_bind in Hc2 as (j2 & Hc2 & _).
    apply list_elem_of_singleton in Hc1, Hc2. congruence.
  - intros i _. apply NoDup_bind; [| |done].
    + intros j1 j2 c _ _ Hc1 Hc2.
      apply list_elem_of_singleton in Hc1, Hc2. congruence.
    + intros j _. apply NoDup_singleton.
Qed.

Lemma length_grid (l1 l2 : list Z) :
  length (i ← l1; j ← l2; [(i, j) : Cell]) = (length l1 * length l2)%nat.
Proof.
  assert (∀ i : Z, length (j ← l2; [(i, j) : Cell]) = length l2) as Hrow.
  { intros i. induction l2 as [|j l2 IH]; [done|].
    rewrite bind_cons, length_app, IH. done. }
  induction l1 as [|i l1 IH]; [done|].
  rewrite bind_cons, length_app, IH, Hrow. cbn [length]. lia.
Qed.

Lemma size_on_board (X : gset Cell) h w :
  (∀ c, c ∈ X → 0 ≤ c.1 < h ∧ 0 ≤ c.2 < w) →
  Z.of_nat (size X) ≤ Z.max 0 h * Z.max 0 w.
Proof.
  intros Hon.
  assert (X ⊆ list_to_set (i ← seqZ 0 h; j ← seqZ 0 w; [(i, j) : Cell]))
    as Hsub.
  { intros c Hc. apply elem_of_list_to_set, elem_of_grid.
    rewrite !elem_of_seqZ. specialize (Hon c Hc). lia. }
  apply subseteq_size in Hsub.
  rewrite size_list_to_set in Hsub by (apply NoDup_grid; apply NoDup_seqZ).
  rewrite length_grid, !length_seqZ in Hsub. nia.
Qed.

(** X17: a game asked for more mines than the board has cells, or for a
    negative number of mines, is never built, whatever is drawn. *)
Theorem game_construction_too_many_mines (h w target : Z)
    (draws : list (Z * Z)) (g : Game.t) :
  target < 0 ∨ Z.max 0 h * Z.max 0 w < target →
  Game.init h w target draws ≠ Game.Built g.
Proof.
  intros Htarget Hbuilt.
  pose proof (game_construction_lemma h w target draws) as Hout.
  rewrite Hbuilt in Hout. destruct Hout as (Hg & Hsize & Hh & Hw & _).
  pose proof (size_on_board (Game.mines g) (Game.height g) (Game.width g)
                (Game.mines_on_board g Hg)) as Hbound.
  rewrite Hh, Hw in Hbound. lia.
Qed.

Lemma game_construction_too_many_mines_witness :
  (2 < 0 ∨ Z.max 0 1 * Z.max 0 1 < 2)
  ∧ Game.init 1 1 2 [(1, 1); (2, 2)]
    ≠ Game.Built (Game.mk 1 1 {[ (0, 0) ]} [[true]] ∅).
Proof.
  assert (2 < 0 ∨ Z.max 0 1 * Z.max 0 1 < 2) as Htarget
    by (right; reflexivity).
  split; [exact Htarget|].
  exact (game_construction_too_many_mines 1 1 2 [(1, 1); (2, 2)]
           (Game.mk 1 1 {[ (0, 0) ]} [[true]] ∅) Htarget).
Defined.

Lemma small_game_built :
  Game.init 2 3 2 [(7, 5); (1, 2); (4, 0)] = Game.Built small_game.
Proof. vm_compute. reflexivity. Qed.

Lemma small_game_consistent : Game.consistent small_game.
Proof.
  pose proof (game_construction_lemma 2 3 2 [(7, 5); (1, 2); (4, 0)]) as Hout.
  rewrite small_game_built in Hout. apply Hout.
Qed.

Lemma getitem_error {A : Type} (l : list A) i e :
  Game.getitem l i = Game.Err e → e = Game.IndexError.
Proof.
  unfold Game.getitem. destruct (Game.position _ _) as [k|]; [|congruence].
  destruct (l !! k); congruence.
Qed.

Lemma getitem_out_of_range {A : Type} (l : list A) i :
  i < - Z.of_nat (length l) ∨ Z.of_nat (length l) ≤ i →
  Game.getitem l i = Game.Err Game.IndexError.
Proof.
  intros Hi. unfold Game.getitem.
  by rewrite (proj2 (position_None _ _) Hi).
Qed.

Lemma getitem_wraps {A : Type} (l : list A) i :
  - Z.of_nat (length l) ≤ i < 0 →
  Game.getitem l i = Game.getitem l (i + Z.of_nat (length l)).
Proof. intros Hi. unfold Game.getitem. by rewrite position_wraps. Qed.

Lemma getitem_Ok {A : Type} (l : list A) i x :
  Game.getitem l i = Game.Ok x → x ∈ l.
Proof.
  unfold Game.getitem. destruct (Game.position _ _) as [k|]; [|done].
  destruct (l !! k) as [y|] eqn:Hk; [|done].
  intros [= <-]. by eapply list_elem_of_lookup_2.
Qed.

(** X18: [is_mine] on a consistent game.  For a cell on the board it tells
    whether the cell is in [mines].  A negative row or column index not
    below minus the height or width is read from the other end of the
    board, as Python lists do; any other index raises [IndexError]. *)
Theorem is_mine_behaviour (g : Game.t) (i j : Z) :
  Game.consistent g →
  (0 ≤ i < Game.height g ∧ 0 ≤ j < Game.width g →
   Game.is_mine g (i, j) = Game.Ok (bool_decide ((i, j) ∈ Game.mines g)))
  ∧ (- Game.height g ≤ i < 0 →
     Game.is_mine g (i, j) = Game.is_mine g (i + Game.height g, j))
  ∧ (0 ≤ i < Game.height g ∧ - Game.width g ≤ j < 0 →
     Game.is_mine g (i, j) = Game.is_mine g (i, j + Game.width g))
  ∧ (i < - Game.height g ∨ Game.height g ≤ i
     ∨ j < - Game.width g ∨ Game.width g ≤ j →
     Game.is_mine g (i, j) = Game.Err Game.IndexError).
Proof.
  intros Hg. pose proof Hg as [Hrows Hcols _ _].
  unfold Game.is_mine; cbn [fst snd]. split_and!.
  - intros [Hi Hj]. by apply at_cell_on_board.
  - intros Hi. unfold Game.at_cell.
    rewrite (getitem_wraps (Game.board g) i) by lia.
    rewrite Hrows. by rewrite Z2Nat.id by lia.
  - intros [Hi Hj].
    destruct (at_cell_on_board g i 0 Hg Hi ltac:(lia))
      as (_ & row & Hrow & _).
    unfold Game.at_cell. rewrite (getitem_in_range _ _ _ (proj1 Hi) Hrow).
    rewrite (getitem_wraps row j) by (rewrite (Hcols _ _ Hrow); lia).
    rewrite (Hcols _ _ Hrow). by rewrite Z2Nat.id by lia.
  - intros Hout. unfold Game.at_cell.
    destruct (Game.getitem (Game.board g) i) as [row|e] eqn:Hrow.
    + apply getitem_out_of_range.
      pose proof (getitem_Ok _ _ _ Hrow) as Hk.
      apply list_elem_of_lookup in Hk as [k Hk].
      rewrite (Hcols _ _ Hk).
      assert (¬ (i < - Game.height g ∨ Game.height g ≤ i)) as Hin.
      { intros Hi. rewrite getitem_out_of_range in Hrow; [done|].
        rewrite Hrows. lia. }
      lia.
    + by rewrite (getitem_error _ _ _ Hrow).
Qed.

Lemma is_mine_behaviour_witness :
  Game.consistent small_game
  ∧ (0 ≤ 1 < Game.height small_game ∧ 0 ≤ 2 < Game.width small_game →
     Game.is_mine small_game (1, 2)
     = Game.Ok (bool_decide ((1, 2) ∈ Game.mines small_game)))
  ∧ (- Game.height small_game ≤ 1 < 0 →
     Game.is_mine small_game (1, 2)
     = Game.is_mine small_game (1 + Game.height small_game, 2))
  ∧ (0 ≤ 1 < Game.height small_game ∧ - Game.width small_game ≤ 2 < 0 →
     Game.is_mine small_game (1, 2)
     = Game.is_mine small_game (1, 2 + Game.width small_game))
  ∧ (1 < - Game.height small_game ∨ Game.height small_game ≤ 1
     ∨ 2 < - Game.width small_game ∨ Game.width small_game ≤ 2 →
     Game.is_mine small_game (1, 2) = Game.Err Game.IndexError).
Proof.
  split; [exact small_game_consistent|].
  exact (is_mine_behaviour small_game 1 2 small_game_consistent).
Defined.

Lemma size_add_cell (X : gset Cell) cell :
  cell ∉ X → size ({[cell]} ∪ X) = S (size X).
Proof.
  intros Hout. rewrite size_union by set_solver. by rewrite size_singleton.
Qed.

(** One turn of the loop of [nearby_mines] on a consistent game adds one
    exactly for a mine other than the cell itself. *)
Lemma nearby_step_consistent g cell n ij :
  Game.consistent g →
  Game.nearby_step g cell (Game.Ok n) ij
  = Game.Ok (n + if bool_decide (ij ≠ cell ∧ ij ∈ Game.mines g)
                 then 1 else 0).
Proof.
  intros Hg. unfold Game.nearby_step.
  destruct (decide (ij = cell)) as [->|Hne].
  - rewrite bool_decide_eq_false_2 by tauto. f_equal. lia.
  - case_bool_decide as Hon.
    + destruct Hon as [Hi Hj].
      destruct (at_cell_on_board g ij.1 ij.2 Hg Hi Hj) as [-> _].
      destruct ij as [i j]; cbn [fst snd].
      destruct (decide ((i, j) ∈ Game.mines g)) as [Hin|Hout].
      * rewrite !bool_decide_eq_true_2 by done. done.
      * rewrite (bool_decide_eq_false_2 ((i, j) ∈ Game.mines g)) by done.
        rewrite bool_decide_eq_false_2 by tauto. f_equal. lia.
    + rewrite bool_decide_eq_false_2; [f_equal; lia|].
      intros [_ Hin]. apply Hon. by apply (Game.mines_on_board g Hg).
Qed.

Lemma foldl_nearby_step g cell l n :
  Game.consistent g → NoDup l →
  foldl (Game.nearby_step g cell) (Game.Ok n) l
  = Game.Ok (n + Z.of_nat
                   (size ((list_to_set l ∖ {[cell]}) ∩ Game.mines g))).
Proof.
  intros Hg Hnodup. revert n.
  induction Hnodup as [|ij l Hij Hnodup IH]; intros n; cbn [foldl].
  - f_equal. replace ((list_to_set [] ∖ {[cell]}) ∩ Game.mines g)
      with (∅ : gset Cell) by set_solver.
    rewrite size_empty. lia.
  - rewrite nearby_step_consistent, IH by done. f_equal.
    change (list_to_set (ij :: l)) with ({[ij]} ∪ list_to_set l : gset Cell).
    case_bool_decide as Hcount.
    + replace ((({[ij]} ∪ list_to_set l) ∖ {[cell]}) ∩ Game.mines g)
        with ({[ij]} ∪ (list_to_set l ∖ {[cell]}) ∩ Game.mines g : gset Cell)
        by set_solver.
      rewrite size_add_cell; [lia|].
      rewrite elem_of_intersection, elem_of_difference, elem_of_list_to_set.
      tauto.
    + replace ((({[ij]} ∪ list_to_set l) ∖ {[cell]}) ∩ Game.mines g)
        with ((list_to_set l ∖ {[cell]}) ∩ Game.mines g : gset Cell);
        [lia|].
      apply set_eq. intros c.
      rewrite !elem_of_intersection, !elem_of_difference, elem_of_union,
        !elem_of_singleton.
      split; [tauto|]. intros [[[->|Hc] Hne] Hin]; [|tauto].
      destruct Hcount. done.
Qed.

Lemma elem_of_around (cell c : Cell) :
  c ∈ Game.around cell ↔
    cell.1 - 1 ≤ c.1 ≤ cell.1 + 1 ∧ cell.2 - 1 ≤ c.2 ≤ cell.2 + 1.
Proof.
  unfold Game.around. rewrite elem_of_grid, !elem_of_seqZ. lia.
Qed.

Lemma around_mines (cell : Cell) (X : gset Cell) :
  (list_to_set (Game.around cell) ∖ {[cell]}) ∩ X = filter (adjacent cell) X.
Proof.
  apply set_eq. intros c.
  rewrite elem_of_intersection, elem_of_difference, elem_of_list_to_set,
    elem_of_around, elem_of_singleton, elem_of_filter.
  unfold adjacent. tauto.
Qed.

Lemma nearby_mines_consistent g cell :
  Game.consistent g →
  Game.nearby_mines g cell
  = Game.Ok (Z.of_nat (size (filter (adjacent cell) (Game.mines g)))).
Proof.
  intros Hg. unfold Game.nearby_mines.
  rewrite foldl_nearby_step;
    [|done|apply NoDup_grid; apply NoDup_seqZ].
  by rewrite around_mines.
Qed.

(** X19: on a consistent game [nearby_mines] never raises and returns the
    number of mines among the eight cells around the given cell, the cell
    itself not counted: a number from 0 to 8. *)
Theorem nearby_mines_counts (g : Game.t) (cell : Cell) :
  Game.consistent g →
  Game.nearby_mines g cell
  = Game.Ok (Z.of_nat (size (filter (adjacent cell) (Game.mines g))))
  ∧ (size (filter (adjacent cell) (Game.mines g)) ≤ 8)%nat.
Proof.
  intros Hg. split; [by apply nearby_mines_consistent|].
  rewrite <- around_mines.
  etrans; [apply subseteq_size, intersection_subseteq_l|].
  assert (cell ∈ (list_to_set (Game.around cell) : gset Cell)) as Hin.
  { apply elem_of_list_to_set, elem_of_around. lia. }
  pose proof (size_remove_cell _ _ Hin) as Hsize.
  rewrite size_list_to_set in Hsize
    by (apply NoDup_grid; apply NoDup_seqZ).
  unfold Game.around in Hsize at 1.
  rewrite length_grid, !length_seqZ in Hsize. simpl Z.to_nat in Hsize. lia.
Qed.

Lemma nearby_mines_counts_witness :
  Game.consistent small_game
  ∧ Game.nearby_mines small_game (0, 1)
    = Game.Ok (Z.of_nat (size (filter (adjacent (0, 1))
                                 (Game.mines small_game))))
  ∧ (size (filter (adjacent (0%Z, 1%Z)) (Game.mines small_game)) ≤ 8)%nat.
Proof.
  split; [exact small_game_consistent|].
  exact (nearby_mines_counts small_game (0, 1) small_game_consistent).
Defined.

(** ** The board and the agent together *)




(** ** The engine keeps what is true *)

Section Soundness.

Variable M : gset Cell.

Lemma true_known_mines s cs :
  true_of M s → known_mines s = Some cs → cs ⊆ M.
Proof.
  unfold true_of, known_mines. intros Htrue.
  destruct (decide (Z.of_nat (size (cells s)) = count s)) as [Hall|];
    [|done].
  intros [= <-].
  assert (cells s ∩ M = cells s) as Heq.
  { apply set_subseteq_size_eq; [set_solver | lia]. }
  set_solver.
Qed.

Lemma true_known_safes s cs :
  true_of M s → known_safes s = Some cs → cs ## M.
Proof.
  unfold true_of, known_safes. intros Htrue.
  destruct (decide (count s = 0)) as [Hzero|]; [|done].
  intros [= <-].
  assert (cells s ∩ M = ∅) as Heq.
  { apply leibniz_equiv, size_empty_iff. lia. }
  set_solver.
Qed.

Lemma size_split (X cs : gset Cell) :
  cs ⊆ M → size (X ∩ M) = (size ((X ∖ cs) ∩ M) + size (X ∩ cs))%nat.
Proof.
  intros Hcs.
  rewrite <- size_union by set_solver. f_equal.
  apply set_eq. intros c.
  rewrite elem_of_union, !elem_of_intersection, elem_of_difference.
  destruct (decide (c ∈ cs)); set_solver.
Qed.

Lemma true_without_mines cs s :
  cs ⊆ M → true_of M s → true_of M (without_mines cs s).
Proof.
  unfold true_of, without_mines. intros Hcs Htrue. cbn [cells count].
  rewrite Htrue, (size_split (cells s) cs Hcs). lia.
Qed.

Lemma true_without_safes cs s :
  cs ## M → true_of M s → true_of M (without_safes cs s).
Proof.
  unfold true_of, without_safes. intros Hcs Htrue. cbn [cells count].
  rewrite Htrue. do 2 f_equal. set_solver.
Qed.

Lemma sound_mark_all_mines cs st :
  cs ⊆ M → sound M st → sound M (mark_all mark_mine cs st).
Proof.
  intros Hcs [Hkb Hmines Hsafes].
  rewrite (proj1 (mark_all_eq cs st)). split; cbn [knowledge mines safes].
  - apply Forall_fmap. eapply Forall_impl; [done|].
    intros s Hs. by apply true_without_mines.
  - set_solver.
  - done.
Qed.

Lemma sound_mark_all_safes cs st :
  cs ## M → sound M st → sound M (mark_all mark_safe cs st).
Proof.
  intros Hcs [Hkb Hmines Hsafes].
  rewrite (proj2 (mark_all_eq cs st)). split; cbn [knowledge mines safes].
  - apply Forall_fmap. eapply Forall_impl; [done|].
    intros s Hs. by apply true_without_safes.
  - done.
  - set_solver.
Qed.

Lemma sound_extract_at st changed i :
  sound M st → sound M (extract_at (st, changed) i).1.
Proof.
  intros Hst. unfold extract_at.
  destruct (knowledge st !! i) as [s|] eqn:Hs; [|done].
  assert (∃ st1 ch1,
    match known_mines s with
    | Some check_mines =>
        if decide (check_mines = ∅) then (st, changed)
        else (mark_all mark_mine check_mines st, true)
    | None => (st, changed)
    end = (st1, ch1) ∧ sound M st1) as (st1 & ch1 & -> & Hst1).
  { destruct (known_mines s) as [cs|] eqn:Hknown;
      [destruct (decide (cs = ∅))|]; eexists _, _;
      (split; [reflexivity|]); try done.
    apply sound_mark_all_mines; [|done].
    eapply true_known_mines; [|done].
    eapply Forall_lookup_1; [apply Hst | done]. }
  destruct (knowledge st1 !! i) as [s'|] eqn:Hs'; [|done].
  destruct (known_safes s') as [cs|] eqn:Hknown;
    [destruct (decide (cs = ∅))|]; cbn [fst]; try done.
  apply sound_mark_all_safes; [|done].
  eapply true_known_safes; [|done].
  eapply Forall_lookup_1; [apply Hst1 | done].
Qed.

Lemma sound_extraction st : sound M st → sound M (extraction st).1.
Proof.
  unfold extraction. generalize (seq 0 (length (knowledge st))) false.
  intros l. revert st. induction l as [|i l IH]; intros st changed Hst;
    cbn [foldl]; [done|].
  pose proof (sound_extract_at st changed i Hst) as Hstep.
  destruct (extract_at (st, changed) i) as [st1 ch1]. by apply IH.
Qed.

(** The sentence derived from two true sentences, one included in the
    other, is true. *)
Lemma true_new_sentence s1 s2 :
  true_of M s1 → true_of M s2 → cells s2 ⊆ cells s1 →
  true_of M (new_sentence s1 s2).
Proof.
  unfold true_of, new_sentence. intros H1 H2 Hsub. cbn [cells count].
  rewrite H1, H2.
  replace (cells s1 ∩ M) with ((cells s1 ∖ cells s2) ∩ M ∪ cells s2 ∩ M).
  - rewrite size_union by set_solver. lia.
  - apply set_eq. intros c.
    rewrite elem_of_union, !elem_of_intersection, elem_of_difference.
    destruct (decide (c ∈ cells s2)); set_solver.
Qed.

Lemma inner_loop_true fuel s1 j kb found :
  true_of M s1 → Forall (true_of M) kb →
  Forall (true_of M) (state_of (inner_loop fuel s1 j kb found)).1.
Proof.
  intros H1. revert j kb found.
  induction fuel as [|fuel IH]; intros j kb found Hkb; rewrite inner_loop_eq;
    (destruct (kb !! j) as [s2|] eqn:Hj; [|done]); [done|].
  destruct (qualifies s1 s2) eqn:Hq; [|by apply IH].
  apply IH. apply Forall_app. split; [done|]. apply Forall_singleton.
  apply qualifies_spec in Hq as [_ Hsub].
  apply true_new_sentence; [done| |done].
  by eapply Forall_lookup_1.
Qed.

Lemma outer_loop_true fuel i r :
  Forall (true_of M) (res_knowledge r) →
  Forall (true_of M) (res_knowledge (state_of (outer_loop fuel i r))).
Proof.
  revert i r. induction fuel as [|fuel IH]; intros i r Hkb;
    rewrite outer_loop_eq;
    (destruct (res_knowledge r !! i) as [s1|] eqn:Hi; [|done]); [done|].
  pose proof (inner_loop_true fuel s1 0 (res_knowledge r)
                (res_subset_found r)
                (Forall_lookup_1 _ _ _ _ Hkb Hi) Hkb) as Hinner.
  destruct (inner_loop fuel s1 0 _ _) as [[kb found]|[kb found]];
    cbn [state_of fst] in Hinner; [|done].
  destruct found; by apply IH.
Qed.

Lemma sound_infer_knowledge_with mc fuel changed st :
  (∀ ch a, sound M a → sound M (state_of (mc ch a))) →
  sound M st → sound M (state_of (infer_knowledge_with mc fuel changed st)).
Proof.
  intros Hmc Hst. unfold infer_knowledge_with.
  destruct changed; cbn [negb]; [|done].
  pose proof (outer_loop_true fuel 0
                (mkResolution (knowledge st) false [] false)
                (sound_knowledge _ _ Hst)) as Hloop.
  destruct (outer_loop fuel 0 _) as [r|r] eqn:Hrun; cbn [state_of] in *.
  - apply completed_pass_is_idle in Hrun as [_ ->].
    cbn [res_changed res_changed_sentences res_knowledge remove_changed
         foldl].
    rewrite set_knowledge_id. by apply Hmc.
  - destruct Hst as [_ Hmines Hsafes]. by split.
Qed.

Lemma sound_mark_cells fuel changed st :
  sound M st → sound M (state_of (mark_cells fuel changed st)).
Proof.
  revert changed st. induction fuel as [|fuel IH]; intros [] st Hst;
    try done.
  rewrite mark_cells_step. unfold infer_knowledge.
  apply sound_infer_knowledge_with; [done|]. by apply sound_extraction.
Qed.

End Soundness.

(** X21: the engine keeps what is true.  If every sentence of the
    knowledge base is true of the mines [M], every cell of [mines] is in
    [M] and no cell of [safes] is, then the same holds of the state
    reached by [mark_cells] and by [infer_knowledge], whatever the step
    budget and the outcome: every cell marked is marked rightly and every
    sentence appended is true. *)
Theorem engine_keeps_truth (M : gset Cell) (st : Agent) (fuel : nat)
    (changed : bool) :
  sound M st →
  sound M (state_of (mark_cells fuel changed st))
  ∧ sound M (state_of (infer_knowledge fuel changed st)).
Proof.
  intros Hst. split; [by apply sound_mark_cells|].
  unfold infer_knowledge. apply sound_infer_knowledge_with; [|done].
  intros ch a. apply sound_mark_cells.
Qed.

Lemma engine_keeps_truth_witness :
  sound {[ (0, 1); (1, 0); (2, 2) ]}
    (add_sentence (1, 1) 3 corner_revealed)
  ∧ sound {[ (0, 1); (1, 0); (2, 2) ]}
      (state_of (mark_cells 9 true (add_sentence (1, 1) 3 corner_revealed)))
  ∧ sound {[ (0, 1); (1, 0); (2, 2) ]}
      (state_of (infer_knowledge 9 true
                   (add_sentence (1, 1) 3 corner_revealed))).
Proof.
  assert (sound {[ (0, 1); (1, 0); (2, 2) ]}
            (add_sentence (1, 1) 3 corner_revealed)) as Hst.
  { split.
    - apply (bool_decide_unpack _). vm_compute. exact I.
    - apply (bool_decide_unpack _). vm_compute. exact I.
    - apply (bool_decide_unpack _). vm_compute. exact I. }
  split; [exact Hst|].
  exact (engine_keeps_truth _ (add_sentence (1, 1) 3 corner_revealed) 9 true
           Hst).
Defined.



